(** * XTAL::validate, the crystal-frequency validator of src/emu/xtal.cpp

    A shallow embedding of [XTAL::known_xtals], the three static fields
    [last_correct_value], [xtal_error_low] and [xtal_error_high], the
    function [XTAL::validate(double)] and the choice of suggestions made by
    [XTAL::fail].

    Doubles are IEEE-754 binary64 values, taken from the Standard Library's
    executable specification of floating-point arithmetic ([spec_float] at
    precision 53 and maximal exponent 1024): subtraction, division and the
    comparisons round and treat NaN, infinities and signed zeros as the
    hardware does (every operation rounds to binary64, as with SSE2
    arithmetic and without value-changing optimisations).  Unsigned ints
    are integers in [0, 2^32) with the wrap-around written out. *)

From Stdlib Require Import ZArith List Bool Lia.
From Stdlib Require Import Floats.SpecFloat.
From Stdlib Require String Ascii DecimalString.
Import ListNotations.
Local Open Scope Z_scope.

(** ** Doubles *)

Module Double.

Definition prec : Z := 53.
Definition emax : Z := 1024.

Definition double : Type := spec_float.

(** The values a C++ [double] can hold: mantissa and exponent in range. *)
Definition is_double (x : double) : Prop := valid_binary prec emax x = true.

(** Conversion of an integer literal ([double x = -1], [32'768] in a
    [double] array): round to nearest, exact below 2^53. *)
Definition of_int (n : Z) : double := binary_normalize prec emax n 0 false.

Definition sub : double -> double -> double := SFsub prec emax.
Definition div : double -> double -> double := SFdiv prec emax.
Definition mul : double -> double -> double := SFmul prec emax.
Definition abs : double -> double := SFabs.

Definition eqb : double -> double -> bool := SFeqb.   (* a == b *)
Definition ltb : double -> double -> bool := SFltb.   (* a <  b *)
Definition leb : double -> double -> bool := SFleb.   (* a <= b *)
Definition gtb (a b : double) : bool := ltb b a.      (* a >  b *)

(** Contextual conversion to [bool]: [if(x)] is [x != 0]. *)
Definition to_bool (x : double) : bool := negb (eqb x (of_int 0)).

(** [DBL_EPSILON] of <cfloat> for binary64: 2^-52. *)
Definition DBL_EPSILON : double := S754_finite false 4503599627370496 (-104).

Definition is_zero (x : double) : bool :=
  match x with S754_zero _ => true | _ => false end.

Definition is_nan (x : double) : bool :=
  match x with S754_nan => true | _ => false end.

Definition is_finite (x : double) : bool :=
  match x with S754_finite _ _ _ => true | _ => false end.

End Double.
Import Double.

(** ** Unsigned 32-bit integers *)

Module U32.

Definition width : Z := 32.
Definition wrap (z : Z) : Z := z mod 2 ^ width.

Definition sub (a b : Z) : Z := wrap (a - b).
Definition add (a b : Z) : Z := wrap (a + b).
Definition or (a b : Z) : Z := Z.lor a b.
Definition xor (a b : Z) : Z := Z.lxor a b.
Definition shr (a n : Z) : Z := Z.shiftr a n.

End U32.

(** ** Results of a run: a value, or the fault that stopped it *)

Inductive fault : Type :=
| OutOfBounds (slot : Z)      (* known_xtals[slot] outside the array *)
| OutOfFuel.                  (* the while loop did not finish *)

Inductive result (A : Type) : Type :=
| Ok (a : A)
| Fault (f : fault).
Arguments Ok {A} a.
Arguments Fault {A} f.

Definition bind {A B : Type} (r : result A) (k : A -> result B) : result B :=
  match r with
  | Ok a => k a
  | Fault f => Fault f
  end.

Notation "x <- r ;; k" := (bind r (fun x => k))
  (at level 61, r at next level, right associativity).

(** ** The reference table *)

(** [known_xtals], in the order of the source. *)
Definition known_xtals_hz : list Z :=
  [
         32_768;      38_400;     384_000;     400_000;     430_000;     455_000;
        512_000;     600_000;     640_000;     960_000;   1_000_000;   1_008_000;
      1_056_000;   1_294_400;   1_689_600;   1_750_000;   1_797_100;   1_843_200;
      2_000_000;   2_012_160;   2_097_152;   2_457_600;   2_500_000;   2_950_000;
      3_000_000;   3_072_000;   3_120_000;   3_521_280;   3_570_000;   3_578_640;
      3_579_545;   3_686_400;   3_840_000;   3_900_000;   4_000_000;   4_028_000;
      4_032_000;   4_096_000;   4_194_304;   4_224_000;   4_410_000;   4_433_610;
      4_433_619;   4_608_000;   4_915_200;   5_000_000;   5_068_800;   5_185_000;
      5_460_000;   5_529_600;   5_626_000;   5_670_000;   5_714_300;   5_911_000;
      5_990_400;   6_000_000;   6_144_000;   6_400_000;   6_500_000;   6_880_000;
      6_900_000;   7_000_000;   7_159_090;   7_372_800;   7_864_300;   7_987_000;
      8_000_000;   8_200_000;   8_388_000;   8_448_000;   8_467_200;   8_664_000;
      8_700_000;   8_867_236;   8_867_238;   8_945_000;   9_216_000;   9_828_000;
      9_830_400;   9_832_000;   9_877_680;   9_987_000;  10_000_000;  10_137_600;
     10_245_000;  10_380_000;  10_500_000;  10_595_000;  10_644_500;  10_687_500;
     10_694_250;  10_717_200;  10_730_000;  10_733_000;  10_738_635;  10_816_000;
     10_920_000;  11_000_000;  11_059_200;  11_200_000;  11_289_000;  11_400_000;
     11_668_800;  11_800_000;  11_980_800;  12_000_000;  12_057_600;  12_096_000;
     12_288_000;  12_324_000;  12_432_000;  12_472_500;  12_480_000;  12_500_000;
     12_672_000;  12_800_000;  12_854_400;  12_936_000;  12_979_200;  13_300_000;
     13_330_560;  13_333_000;  13_400_000;  13_478_400;  13_495_200;  13_516_800;
     13_608_000;  13_824_000;  14_000_000;  14_112_000;  14_192_640;  14_218_000;
     14_300_000;  14_314_000;  14_318_181;  14_705_882;  14_745_600;  14_784_000;
     14_916_000;  14_976_000;  15_000_000;  15_148_800;  15_288_000;  15_300_720;
     15_360_000;  15_400_000;  15_468_480;  15_582_000;  15_700_000;  15_897_600;
     15_920_000;  15_974_400;  16_000_000;  16_097_280;  16_128_000;  16_384_000;
     16_400_000;  16_572_000;  16_588_800;  16_669_800;  16_670_000;  16_777_216;
     16_934_400;  17_064_000;  17_360_000;  17_550_000;  17_600_000;  17_734_470;
     17_734_472;  17_971_200;  18_000_000;  18_432_000;  18_480_000;  18_575_000;
     18_720_000;  18_869_600;  19_339_600;  19_600_000;  19_602_000;  19_660_800;
     19_661_400;  19_923_000;  19_968_000;  20_000_000;  20_160_000;  20_275_200;
     20_625_000;  20_790_000;  21_000_000;  21_052_600;  21_060_000;  21_254_400;
     21_281_370;  21_300_000;  21_477_272;  22_000_000;  22_032_000;  22_096_000;
     22_118_400;  22_321_000;  22_464_000;  22_656_000;  22_896_000;  23_814_000;
     23_961_600;  24_000_000;  24_073_400;  24_576_000;  24_883_200;  25_000_000;
     25_174_800;  25_200_000;  25_398_360;  25_400_000;  25_447_000;  25_590_906;
     25_593_900;  25_771_500;  25_920_000;  26_000_000;  26_366_000;  26_580_000;
     26_601_712;  26_666_000;  26_666_666;  26_686_000;  26_989_200;  27_000_000;
     27_164_000;  27_210_900;  27_562_000;  28_000_000;  28_322_000;  28_375_160;
     28_475_000;  28_480_000;  28_636_363;  28_640_000;  28_700_000;  29_376_000;
     29_491_200;  30_000_000;  30_476_100;  30_800_000;  31_279_500;  31_684_000;
     31_948_800;  32_000_000;  32_147_000;  32_220_000;  32_317_400;  32_530_400;
     33_000_000;  33_264_000;  33_333_000;  33_833_000;  33_868_800;  34_000_000;
     34_291_712;  34_846_000;  35_904_000;  36_000_000;  37_980_000;  38_769_220;
     38_863_630;  39_321_600;  39_710_000;  40_000_000;  40_210_000;  42_000_000;
     42_105_200;  42_954_545;  43_320_000;  44_100_000;  44_452_800;  45_000_000;
     45_158_000;  45_619_200;  45_830_400;  46_615_120;  47_736_000;  48_000_000;
     48_384_000;  48_556_800;  48_654_000;  48_660_000;  49_152_000;  49_423_500;
     50_000_000;  50_113_000;  50_349_000;  51_200_000;  52_000_000;  52_832_000;
     53_203_400;  53_693_175;  54_000_000;  55_000_000;  57_272_727;  58_000_000;
     59_292_000;  60_000_000;  61_440_000;  64_000_000;  66_666_700;  67_737_600;
     68_850_000;  69_551_990;  72_000_000;  72_576_000;  73_728_000;  80_000_000;
     87_183_360; 100_000_000; 101_491_200; 200_000_000
  ].

Definition known_xtals : list double := map of_int known_xtals_hz.

(** [known_xtals[slot]]: a read outside the array is a fault. *)
Definition read (tbl : list double) (slot : Z) : result double :=
  if slot <? 0 then Fault (OutOfBounds slot)
  else match nth_error tbl (Z.to_nat slot) with
       | Some x => Ok x
       | None => Fault (OutOfBounds slot)
       end.

(** ** The validation state: the three static fields of XTAL *)

Record xtal_state : Type := {
  last_correct_value : double;
  xtal_error_low : double;
  xtal_error_high : double
}.

Definition initial_state : xtal_state :=
  {| last_correct_value := of_int (-1);
     xtal_error_low := of_int 0;
     xtal_error_high := of_int 0 |}.

Definition set_last_correct_value (st : xtal_state) (v : double) : xtal_state :=
  {| last_correct_value := v;
     xtal_error_low := xtal_error_low st;
     xtal_error_high := xtal_error_high st |}.

Definition set_xtal_error (st : xtal_state) (low high : double) : xtal_state :=
  {| last_correct_value := last_correct_value st;
     xtal_error_low := low;
     xtal_error_high := high |}.

(** ** XTAL::validate(double) *)

(** [std::abs((base_clock - sfreq) / base_clock) <= 2 * DBL_EPSILON]. *)
Definition within_tolerance (base_clock sfreq : double) : bool :=
  let diff := abs (div (sub base_clock sfreq) base_clock) in
  leb diff (mul (of_int 2) DBL_EPSILON).

(** [ppow2]: the bit fill of [last_index], then its top bit. *)
Definition ppow2_of (last_index : Z) : Z :=
  let fill1 := U32.or last_index (U32.shr last_index 1) in
  let fill2 := U32.or fill1 (U32.shr fill1 2) in
  let fill4 := U32.or fill2 (U32.shr fill2 4) in
  let fill8 := U32.or fill4 (U32.shr fill4 8) in
  let fill16 := U32.or fill8 (U32.shr fill8 16) in
  U32.sub fill16 (U32.shr fill16 1).

(** How the while loop is left: by its [return true], or with [step == 0]. *)
Inductive loop_exit : Type :=
| Matched
| Settled (slot : Z).

(** [slot ^ (step | (step >> 1))] *)
Definition retract (slot step : Z) : Z :=
  U32.xor slot (U32.or step (U32.shr step 1)).

(** [slot | (step >> 1)] *)
Definition advance (slot step : Z) : Z :=
  U32.or slot (U32.shr step 1).

(** The loop [while(step) { ... step = step >> 1; }]; [fuel] bounds the
    number of iterations. *)
Fixpoint search (fuel : nat) (tbl : list double) (last_index : Z)
    (base_clock : double) (slot step : Z) : result loop_exit :=
  if step =? 0 then Ok (Settled slot)
  else match fuel with
       | O => Fault OutOfFuel
       | S fuel' =>
         if slot >? last_index then
           search fuel' tbl last_index base_clock (retract slot step) (U32.shr step 1)
         else
           sfreq <- read tbl slot ;;
           if within_tolerance base_clock sfreq then Ok Matched
           else if gtb base_clock sfreq then
             search fuel' tbl last_index base_clock (advance slot step) (U32.shr step 1)
           else
             search fuel' tbl last_index base_clock (retract slot step) (U32.shr step 1)
       end.

(** The part of [validate] after the cache test.  It does not read the
    state; its verdict tells which fields the call writes. *)
Inductive verdict : Type :=
| Correct                         (* last_correct_value = base_clock; return true *)
| Unknown (low high : double).    (* xtal_error_low, xtal_error_high written; return false *)

Definition lookup (tbl : list double) (base_clock : double) : result verdict :=
  let xtal_count := U32.wrap (Z.of_nat (length tbl)) in
  let last_index := U32.sub xtal_count 1 in
  let ppow2 := ppow2_of last_index in
  r <- search (Z.to_nat U32.width) tbl last_index base_clock ppow2 ppow2 ;;
  match r with
  | Matched => Ok Correct
  | Settled slot =>
    sfreq <- read tbl slot ;;
    if eqb base_clock sfreq then Ok Correct
    else if ltb base_clock sfreq then
      low <- (if slot =? 0 then Ok (of_int 0) else read tbl (U32.sub slot 1)) ;;
      Ok (Unknown low sfreq)
    else
      high <- (if slot <? last_index then read tbl (U32.add slot 1) else Ok (of_int 0)) ;;
      Ok (Unknown sfreq high)
  end.

Definition validate_on (tbl : list double) (st : xtal_state) (base_clock : double)
  : result (bool * xtal_state) :=
  if eqb base_clock (last_correct_value st) then Ok (true, st)
  else
    r <- lookup tbl base_clock ;;
    match r with
    | Correct => Ok (true, set_last_correct_value st base_clock)
    | Unknown low high => Ok (false, set_xtal_error st low high)
    end.

Definition validate : xtal_state -> double -> result (bool * xtal_state) :=
  validate_on known_xtals.

(** ** XTAL::fail: the frequencies named in "Did you mean ...?" *)

Definition suggestions (st : xtal_state) : list double :=
  if to_bool (xtal_error_low st) && to_bool (xtal_error_high st) then
    [xtal_error_low st; xtal_error_high st]
  else
    [if to_bool (xtal_error_low st) then xtal_error_low st else xtal_error_high st].

(** * Vocabulary of the specification *)

(** ** States a run of the program can be in *)

Inductive reachable (tbl : list double) : xtal_state -> Prop :=
| reachable_initial : reachable tbl initial_state
| reachable_call (st : xtal_state) (v : double) (b : bool) (st' : xtal_state) :
    reachable tbl st ->
    validate_on tbl st v = Ok (b, st') ->
    reachable tbl st'.

(** ** The curation contract of a table *)

(** A positive finite double. *)
Definition entry_ok (s : double) : bool :=
  match s with
  | S754_finite false m e => bounded prec emax m e
  | _ => false
  end.

(** The value of a finite double in units of the smallest subnormal. *)
Definition scaled (m : positive) (e : Z) : Z :=
  Z.pos m * 2 ^ (e - emin prec emax).

(** [a < b] are further apart than any tolerance match reaches: the
    difference has at most 47 binary digits less than [b]. *)
Definition separated (a b : double) : bool :=
  match a, b with
  | S754_finite false ma ea, S754_finite false mb eb =>
      (scaled ma ea <? scaled mb eb)
      && (Z.log2 (scaled mb eb) <=? Z.log2 (scaled mb eb - scaled ma ea) + 47)
  | _, _ => false
  end.

Fixpoint adjacent (P : double -> double -> bool) (tbl : list double) : bool :=
  match tbl with
  | a :: (b :: _) as rest => P a b && adjacent P rest
  | _ => true
  end.

(** A table as the validator expects it: a non-empty array whose size fits
    an unsigned int, of positive finite doubles, strictly ascending, with
    neighbours well apart. *)
Definition curated (tbl : list double) : bool :=
  (0 <? Z.of_nat (length tbl)) && (Z.of_nat (length tbl) <? 2 ^ U32.width)
  && forallb entry_ok tbl
  && adjacent ltb tbl
  && adjacent separated tbl.

(** Some entry of the table is within tolerance of the candidate. *)
Definition matches (tbl : list double) (v : double) : Prop :=
  exists s, In s tbl /\ within_tolerance v s = true.

(** ** The search loop *)

(** [F] has bit [n] set exactly when [last_index] has a bit set among the
    [w] bits from [n] upwards. *)
Definition fills (last_index w F : Z) : Prop :=
  forall n, 0 <= n ->
    (Z.testbit F n = true <->
     exists d, 0 <= d < w /\ Z.testbit last_index (n + d) = true).

(** The probe at [k] failed and sent the search to the right. *)
Definition probed_above (tbl : list double) (v : double) (k : Z) : Prop :=
  exists s, read tbl k = Ok s
            /\ within_tolerance v s = false
            /\ gtb v s = true.

(** The probe at [k] failed and sent the search to the left. *)
Definition probed_below (tbl : list double) (v : double) (k : Z) : Prop :=
  exists s, read tbl k = Ok s
            /\ within_tolerance v s = false
            /\ gtb v s = false.

(** What a run of the loop over the window [lo, hi) establishes. *)
Definition search_post (tbl : list double) (last_index : Z) (v : double)
    (lo hi : Z) (r : result loop_exit) : Prop :=
  match r with
  | Ok Matched =>
      exists k s, read tbl k = Ok s /\ within_tolerance v s = true
  | Ok (Settled f) =>
      lo <= f <= last_index /\ f < hi
      /\ (f = lo \/ probed_above tbl v f)
      /\ (f + 1 = hi \/ f = last_index \/ probed_below tbl v (f + 1))
  | Fault _ => False
  end.

(** Where the loop can come to rest: at a slot of the array whose entry,
    unless it is the first, was probed and found below the candidate, and
    whose successor, unless it is the last, was probed and found not below
    the candidate. *)
Definition settles_at (tbl : list double) (v : double) (f : Z) : Prop :=
  0 <= f <= Z.of_nat (length tbl) - 1
  /\ (f = 0 \/ probed_above tbl v f)
  /\ (f = Z.of_nat (length tbl) - 1 \/ probed_below tbl v (f + 1)).

(** The ways [lookup] comes to its verdict. *)
Inductive lookup_outcome (tbl : list double) (v : double) : verdict -> Prop :=
| found_in_loop (k : Z) (s : double) :
    read tbl k = Ok s ->
    within_tolerance v s = true ->
    lookup_outcome tbl v Correct
| found_after_loop (f : Z) (s : double) :
    settles_at tbl v f ->
    read tbl f = Ok s ->
    eqb v s = true ->
    lookup_outcome tbl v Correct
| unknown_below (f : Z) (s low : double) :
    settles_at tbl v f ->
    read tbl f = Ok s ->
    eqb v s = false ->
    ltb v s = true ->
    (if f =? 0 then Ok (of_int 0) else read tbl (f - 1)) = Ok low ->
    lookup_outcome tbl v (Unknown low s)
| unknown_above (f : Z) (s high : double) :
    settles_at tbl v f ->
    read tbl f = Ok s ->
    eqb v s = false ->
    ltb v s = false ->
    (if f <? Z.of_nat (length tbl) - 1 then read tbl (f + 1) else Ok (of_int 0))
    = Ok high ->
    lookup_outcome tbl v (Unknown s high).

(** The three ways a call of [validate] returns. *)
Inductive call_outcome (tbl : list double) (st : xtal_state) (v : double)
  : bool -> xtal_state -> Prop :=
| call_cached :
    eqb v (last_correct_value st) = true ->
    call_outcome tbl st v true st
| call_correct :
    eqb v (last_correct_value st) = false ->
    lookup tbl v = Ok Correct ->
    call_outcome tbl st v true (set_last_correct_value st v)
| call_unknown (low high : double) :
    eqb v (last_correct_value st) = false ->
    lookup tbl v = Ok (Unknown low high) ->
    call_outcome tbl st v false (set_xtal_error st low high).

(** ** Proof automation *)

(** Comparisons of doubles, by cases on signs, exponents and mantissas. *)
Ltac by_cases_on_compare :=
  unfold ltb, eqb, gtb, leb, SFltb, SFeqb, SFleb, SFcompare;
  repeat match goal with
         | s : bool |- _ => destruct s
         end;
  change (Pos.compare_cont Eq) with Pos.compare;
  repeat match goal with
         | |- context [Z.compare ?a ?b] => destruct (Z.compare_spec a b)
         | |- context [Pos.compare ?a ?b] => destruct (Pos.compare_spec a b)
         end;
  cbn; try congruence; try lia.


(** * XTAL::fail and the validate(message) overloads *)

Module Report.
Import Ascii String.
Local Open Scope string_scope.

(** How a call that may end in [fatalerror] ends. *)
Inductive run (A : Type) : Type :=
| Returns (a : A)
| Fatal (text : string).
Arguments Returns {A} a.
Arguments Fatal {A} text.

Definition newline : string := String "010"%char EmptyString.

Section Format.

(** [util::string_format] with the conversion "%.0f": the rendering of a
    double without decimals.  The formatter is not part of this file and
    stays a parameter. *)
Variable fixed0 : double -> string.

(** [XTAL::fail]: [full_message] as it is built up, then
    [fatalerror("%s\n", full_message.c_str())]. *)
Definition fail (st : xtal_state) (base_clock : double) (message : string)
  : run xtal_state :=
  let full_message := "Unknown crystal value " ++ fixed0 base_clock ++ ". " in
  let full_message :=
    if to_bool (xtal_error_low st) && to_bool (xtal_error_high st) then
      full_message
      ++ (" Did you mean " ++ fixed0 (xtal_error_low st)
          ++ " or " ++ fixed0 (xtal_error_high st) ++ "?")
    else
      full_message
      ++ (" Did you mean "
          ++ fixed0 (if to_bool (xtal_error_low st)
                     then xtal_error_low st else xtal_error_high st)
          ++ "?") in
  let full_message := full_message ++ (" Context: " ++ message ++ newline) in
  Fatal (full_message ++ newline).

(** [XTAL::validate(const char *message)] and
    [XTAL::validate(const std::string &message)]: the two overloads have
    the same body; [m_base_clock] is the frequency the XTAL object holds. *)
Definition validate_message (st : xtal_state) (m_base_clock : double)
    (message : string) : result (run xtal_state) :=
  r <- validate st m_base_clock ;;
  if fst r then Ok (Returns (snd r))
  else Ok (fail (snd r) m_base_clock message).

End Format.

End Report.

(** * Running the model *)

Example known_xtals_count : length known_xtals = 316%nat.
Proof. reflexivity. Qed.

Example known_xtals_ppow2 : ppow2_of 315 = 256.
Proof. reflexivity. Qed.

Example validate_ntsc_subcarrier :
  validate initial_state (of_int 3579545)
  = Ok (true, set_last_correct_value initial_state (of_int 3579545)).
Proof. vm_compute. reflexivity. Qed.

Example validate_one_off :
  validate initial_state (of_int 3579546)
  = Ok (false, set_xtal_error initial_state (of_int 3579545) (of_int 3686400)).
Proof. vm_compute. reflexivity. Qed.

Example validate_exact_landing :
  validate_on (map of_int [100; 200; 300]) initial_state (of_int 200)
  = Ok (true, set_last_correct_value initial_state (of_int 200)).
Proof. vm_compute. reflexivity. Qed.

(** On an empty table every search faults at its first probe, so a call
    that returns on every table has not searched. *)
Lemma lookup_empty_faults (v : double) :
  lookup [] v = Fault (OutOfBounds 2147483648).
Proof. reflexivity. Qed.

(** * Unsigned arithmetic of the probe sequence *)

Section ProbeArithmetic.

Lemma land_pow2_low (x j k : Z) :
  0 <= j < k -> Z.land (x * 2 ^ k) (2 ^ j) = 0.
Proof.
  intros Hjk. apply Z.bits_inj'. intros n Hn.
  rewrite Z.land_spec, Z.bits_0, Z.pow2_bits_eqb by lia.
  destruct (Z.eqb_spec j n) as [->|_].
  - rewrite Z.mul_pow2_bits_low by lia. reflexivity.
  - apply andb_false_r.
Qed.

Lemma shr_step (j : Z) : 0 <= j -> U32.shr (2 ^ (j + 1)) 1 = 2 ^ j.
Proof.
  intros Hj. unfold U32.shr. rewrite Z.shiftr_div_pow2 by lia.
  rewrite Z.pow_add_r by lia. change (2 ^ 1) with 2.
  apply Z.div_mul. lia.
Qed.

Lemma shr_one : U32.shr 1 1 = 0.
Proof. reflexivity. Qed.

(** With [step = 2^(j+1)] and [slot = lo + step], where the bits of [lo]
    below [2 * step] are clear, moving right sets the next lower bit. *)
Lemma advance_step (q j : Z) :
  0 <= j ->
  advance (q * 2 ^ (j + 2) + 2 ^ (j + 1)) (2 ^ (j + 1))
  = (2 * q + 1) * 2 ^ (j + 1) + 2 ^ j.
Proof.
  intros Hj. unfold advance. rewrite shr_step by lia. unfold U32.or.
  replace (q * 2 ^ (j + 2) + 2 ^ (j + 1)) with ((2 * q + 1) * 2 ^ (j + 1)).
  - rewrite <- Z.lxor_lor by (apply land_pow2_low; lia).
    rewrite <- Z.add_nocarry_lxor by (apply land_pow2_low; lia).
    reflexivity.
  - replace (j + 2) with (j + 1 + 1) by lia.
    rewrite (Z.pow_add_r 2 (j + 1) 1) by lia. change (2 ^ 1) with 2. ring.
Qed.

(** Moving left, or stepping back inside the array, clears the bit of
    [step] and sets the next lower one. *)
Lemma retract_step (q j : Z) :
  0 <= j ->
  retract (q * 2 ^ (j + 2) + 2 ^ (j + 1)) (2 ^ (j + 1))
  = (2 * q) * 2 ^ (j + 1) + 2 ^ j.
Proof.
  intros Hj. unfold retract. rewrite shr_step by lia. unfold U32.or, U32.xor.
  assert (H1 : Z.land (q * 2 ^ (j + 2)) (2 ^ (j + 1)) = 0)
    by (apply land_pow2_low; lia).
  assert (H2 : Z.land (q * 2 ^ (j + 2)) (2 ^ j) = 0)
    by (apply land_pow2_low; lia).
  assert (H3 : Z.land (2 ^ (j + 1)) (2 ^ j) = 0).
  { rewrite <- (Z.mul_1_l (2 ^ (j + 1))). apply land_pow2_low; lia. }
  rewrite (Z.add_nocarry_lxor _ _ H1).
  rewrite <- (Z.lxor_lor _ _ H3).
  rewrite Z.lxor_assoc, <- (Z.lxor_assoc (2 ^ (j + 1))).
  rewrite Z.lxor_nilpotent, Z.lxor_0_l.
  rewrite <- (Z.add_nocarry_lxor _ _ H2).
  replace (j + 2) with (j + 1 + 1) by lia.
  rewrite (Z.pow_add_r 2 (j + 1) 1) by lia. change (2 ^ 1) with 2. ring.
Qed.

Lemma advance_last (q : Z) : advance (2 * q + 1) 1 = 2 * q + 1.
Proof. unfold advance. rewrite shr_one. apply Z.lor_0_r. Qed.

Lemma retract_last (q : Z) : retract (2 * q + 1) 1 = 2 * q.
Proof.
  unfold retract. rewrite shr_one. unfold U32.or, U32.xor.
  rewrite Z.lor_0_r.
  assert (H : Z.land (2 * q) 1 = 0).
  { replace (2 * q) with (q * 2 ^ 1) by (change (2 ^ 1) with 2; ring).
    change 1 with (2 ^ 0) at 2. apply land_pow2_low. lia. }
  rewrite (Z.add_nocarry_lxor _ _ H).
  rewrite Z.lxor_assoc, Z.lxor_nilpotent. apply Z.lxor_0_r.
Qed.

End ProbeArithmetic.

(** * The search loop *)

Lemma read_inv (tbl : list double) (k : Z) (s : double) :
  read tbl k = Ok s ->
  0 <= k < Z.of_nat (length tbl) /\ nth_error tbl (Z.to_nat k) = Some s.
Proof.
  unfold read. destruct (Z.ltb_spec k 0); [discriminate|].
  destruct (nth_error tbl (Z.to_nat k)) eqn:E; [|discriminate].
  intros [= ->]. split; [|reflexivity].
  assert (Z.to_nat k < length tbl)%nat by (apply nth_error_Some; congruence).
  lia.
Qed.

Lemma read_in_bounds (tbl : list double) (k : Z) :
  0 <= k < Z.of_nat (length tbl) -> exists s, read tbl k = Ok s.
Proof.
  intros Hk. unfold read. destruct (Z.ltb_spec k 0); [lia|].
  destruct (nth_error tbl (Z.to_nat k)) eqn:E; [eauto|].
  apply nth_error_None in E. lia.
Qed.

Lemma read_nth (tbl : list double) (i : nat) (s : double) :
  nth_error tbl i = Some s -> read tbl (Z.of_nat i) = Ok s.
Proof.
  intros H. unfold read. destruct (Z.ltb_spec (Z.of_nat i) 0); [lia|].
  now rewrite Nat2Z.id, H.
Qed.

Lemma read_In (tbl : list double) (k : Z) (s : double) :
  read tbl k = Ok s -> In s tbl.
Proof. intros H. apply read_inv in H as [_ H]. eapply nth_error_In, H. Qed.

Lemma search_done fuel tbl last_index v slot :
  search fuel tbl last_index v slot 0 = Ok (Settled slot).
Proof. destruct fuel; reflexivity. Qed.

Section SearchLoop.

Variable tbl : list double.
Variable last_index : Z.
Variable base_clock : double.
Hypothesis table_length : Z.of_nat (length tbl) = last_index + 1.

(** The invariant of the loop: with [step = 2^j] the slot is the middle of
    a window [q * 2^(j+1), (q+1) * 2^(j+1)) whose lower end is inside the
    array.  Every iteration halves the window; [j + 1] iterations end the
    loop, every read is inside the array, and the final slot is too. *)
Lemma search_window (j : nat) :
  forall (fuel : nat) (q : Z),
    (j < fuel)%nat -> 0 <= q ->
    q * 2 ^ (Z.of_nat j + 1) <= last_index ->
    search_post tbl last_index base_clock
      (q * 2 ^ (Z.of_nat j + 1)) ((q + 1) * 2 ^ (Z.of_nat j + 1))
      (search fuel tbl last_index base_clock
         (q * 2 ^ (Z.of_nat j + 1) + 2 ^ Z.of_nat j) (2 ^ Z.of_nat j)).
Proof.
  induction j as [|j IH]; intros fuel q Hfuel Hq Hlo.
  - (* step = 1: the last iteration *)
    destruct fuel as [|fuel]; [lia|].
    change (Z.of_nat 0) with 0 in *. change (2 ^ (0 + 1)) with 2 in *.
    change (2 ^ 0) with 1.
    replace (q * 2 + 1) with (2 * q + 1) by ring.
    cbn [search]. change (1 =? 0) with false. cbv iota.
    rewrite shr_one, retract_last, advance_last, !search_done.
    destruct (Z.gtb_spec (2 * q + 1) last_index) as [Hout|Hin].
    + unfold search_post. split; [lia|]. split; [lia|]. split.
      * left. ring.
      * right. left. lia.
    + destruct (read_in_bounds tbl (2 * q + 1)) as [s Hs]; [lia|].
      rewrite Hs. cbn [bind].
      destruct (within_tolerance base_clock s) eqn:Htol.
      * unfold search_post. eauto.
      * destruct (gtb base_clock s) eqn:Hgt; unfold search_post.
        -- split; [lia|]. split; [lia|]. split.
           ++ right. exists s. auto.
           ++ left. ring.
        -- split; [lia|]. split; [lia|]. split.
           ++ left. ring.
           ++ right. right. exists s. auto.
  - (* step = 2^(j+1) *)
    destruct fuel as [|fuel]; [lia|].
    rewrite Nat2Z.inj_succ in Hlo |- *. unfold Z.succ in Hlo |- *.
    set (J := Z.of_nat j) in *.
    assert (HJ : 0 <= J) by (subst J; lia).
    replace (J + 1 + 1) with (J + 2) in * by lia.
    assert (Hpow : 2 ^ (J + 2) = 2 * 2 ^ (J + 1)).
    { replace (J + 2) with (J + 1 + 1) by lia.
      rewrite (Z.pow_add_r 2 (J + 1) 1) by lia. change (2 ^ 1) with 2. ring. }
    assert (Hpos : 0 < 2 ^ (J + 1)) by (apply Z.pow_pos_nonneg; lia).
    assert (Hposj : 0 < 2 ^ J) by (apply Z.pow_pos_nonneg; lia).
    cbn [search].
    destruct (Z.eqb_spec (2 ^ (J + 1)) 0) as [E|_]; [lia|].
    rewrite shr_step, retract_step, advance_step by lia.
    destruct (Z.gtb_spec (q * 2 ^ (J + 2) + 2 ^ (J + 1)) last_index) as [Hout|Hin].
    + (* stepped past the end of the table *)
      specialize (IH fuel (2 * q) ltac:(lia) ltac:(lia) ltac:(nia)).
      destruct (search fuel tbl last_index base_clock _ _) as [[|f]|];
        unfold search_post in *; [exact IH| |contradiction].
      destruct IH as (Hf & Hhi & Hl & Hr).
      split; [nia|]. split; [nia|]. split.
      * destruct Hl as [->|Hl]; [left; rewrite Hpow; ring|right; exact Hl].
      * destruct Hr as [Hr|[Hr|Hr]]; auto. right. left. nia.
    + destruct (read_in_bounds tbl (q * 2 ^ (J + 2) + 2 ^ (J + 1))) as [s Hs]; [nia|].
      rewrite Hs. cbn [bind].
      destruct (within_tolerance base_clock s) eqn:Htol.
      * unfold search_post. eauto.
      * destruct (gtb base_clock s) eqn:Hgt.
        -- (* move right *)
           specialize (IH fuel (2 * q + 1) ltac:(lia) ltac:(lia) ltac:(nia)).
           destruct (search fuel tbl last_index base_clock _ _) as [[|f]|];
             unfold search_post in *; [exact IH| |contradiction].
           destruct IH as (Hf & Hhi & Hl & Hr).
           split; [nia|]. split; [nia|]. split.
           ++ right. destruct Hl as [->|Hl]; [|exact Hl].
              exists s. replace ((2 * q + 1) * 2 ^ (J + 1))
                with (q * 2 ^ (J + 2) + 2 ^ (J + 1)) by nia. auto.
           ++ destruct Hr as [Hr|[Hr|Hr]]; auto. left. nia.
        -- (* move left *)
           specialize (IH fuel (2 * q) ltac:(lia) ltac:(lia) ltac:(nia)).
           destruct (search fuel tbl last_index base_clock _ _) as [[|f]|];
             unfold search_post in *; [exact IH| |contradiction].
           destruct IH as (Hf & Hhi & Hl & Hr).
           split; [nia|]. split; [nia|]. split.
           ++ destruct Hl as [->|Hl]; [left; rewrite Hpow; ring|right; exact Hl].
           ++ destruct Hr as [Hr|[Hr|Hr]]; auto. right. right.
              replace (f + 1) with (q * 2 ^ (J + 2) + 2 ^ (J + 1)) by nia.
              exists s. auto.
Qed.

End SearchLoop.

(** * The starting point [ppow2] *)

Section BitFill.

Variable last_index : Z.

Lemma fills_start : fills last_index 1 last_index.
Proof.
  intros n Hn. split.
  - intros H. exists 0. split; [lia|]. now rewrite Z.add_0_r.
  - intros (d & Hd & H). replace (n + d) with n in H by lia. exact H.
Qed.

Lemma fills_double (w F : Z) :
  0 < w -> fills last_index w F ->
  fills last_index (2 * w) (U32.or F (U32.shr F w)).
Proof.
  intros Hw HF n Hn. unfold U32.or, U32.shr.
  rewrite Z.lor_spec, Z.shiftr_spec, orb_true_iff by lia.
  rewrite (HF n Hn), (HF (n + w)) by lia. split.
  - intros [(d & Hd & H)|(d & Hd & H)].
    + exists d. split; [lia|exact H].
    + exists (w + d). split; [lia|]. now rewrite Z.add_assoc.
  - intros (d & Hd & H). destruct (Z.lt_ge_cases d w).
    + left. exists d. split; [lia|exact H].
    + right. exists (d - w). split; [lia|].
      now replace (n + w + (d - w)) with (n + d) by lia.
Qed.

Hypothesis last_index_range : 0 < last_index < 2 ^ U32.width.

Lemma fills_all (F : Z) :
  0 <= F -> fills last_index U32.width F -> F = Z.ones (Z.log2 last_index + 1).
Proof.
  intros HF0 HF. apply Z.bits_inj'. intros n Hn.
  assert (Hlog : 0 <= Z.log2 last_index < U32.width).
  { split; [apply Z.log2_nonneg|]. apply Z.log2_lt_pow2; lia. }
  rewrite Z.testbit_ones_nonneg by lia.
  apply eq_true_iff_eq. rewrite (HF n Hn). rewrite Z.ltb_lt. split.
  - intros (d & Hd & H).
    destruct (Z.lt_ge_cases (Z.log2 last_index) (n + d)) as [Habove|]; [|lia].
    rewrite Z.bits_above_log2 in H by lia. discriminate.
  - intros Hlt. exists (Z.log2 last_index - n). split; [lia|].
    replace (n + (Z.log2 last_index - n)) with (Z.log2 last_index) by lia.
    apply Z.bit_log2. lia.
Qed.

(** [ppow2] is the largest power of two not above [last_index]. *)
Lemma ppow2_of_log2 : ppow2_of last_index = 2 ^ Z.log2 last_index.
Proof.
  unfold ppow2_of.
  set (fill1 := U32.or last_index (U32.shr last_index 1)).
  set (fill2 := U32.or fill1 (U32.shr fill1 2)).
  set (fill4 := U32.or fill2 (U32.shr fill2 4)).
  set (fill8 := U32.or fill4 (U32.shr fill4 8)).
  set (fill16 := U32.or fill8 (U32.shr fill8 16)).
  assert (H1 : fills last_index 2 fill1)
    by (apply (fills_double 1); [lia|apply fills_start]).
  assert (H2 : fills last_index 4 fill2) by (apply (fills_double 2); [lia|exact H1]).
  assert (H4 : fills last_index 8 fill4) by (apply (fills_double 4); [lia|exact H2]).
  assert (H8 : fills last_index 16 fill8) by (apply (fills_double 8); [lia|exact H4]).
  assert (H16 : fills last_index 32 fill16) by (apply (fills_double 16); [lia|exact H8]).
  assert (Hnn : 0 <= fill16).
  { subst fill16 fill8 fill4 fill2 fill1. unfold U32.or, U32.shr.
    repeat (apply Z.lor_nonneg; split; [|apply Z.shiftr_nonneg]); lia. }
  pose proof (fills_all fill16 Hnn H16) as E.
  assert (Hlog : 0 <= Z.log2 last_index < U32.width).
  { split; [apply Z.log2_nonneg|]. apply Z.log2_lt_pow2; lia. }
  set (k := Z.log2 last_index) in *.
  assert (Hk : 0 < 2 ^ k) by (apply Z.pow_pos_nonneg; lia).
  assert (Hk32 : 2 ^ k < 2 ^ U32.width) by (apply Z.pow_lt_mono_r; lia).
  assert (Hshr : U32.shr fill16 1 = Z.ones k).
  { rewrite E. unfold U32.shr. rewrite Z.shiftr_div_pow2 by lia.
    rewrite !Z.ones_equiv, Z.pow_add_r by lia. change (2 ^ 1) with 2.
    unfold Z.pred.
    replace (2 ^ k * 2 + -1) with (1 + (2 ^ k - 1) * 2) by ring.
    rewrite Z.div_add by lia. change (1 / 2) with 0. ring. }
  rewrite Hshr, E. unfold U32.sub, U32.wrap.
  rewrite !Z.ones_equiv, Z.pow_add_r by lia. change (2 ^ 1) with 2.
  unfold Z.pred. replace (2 ^ k * 2 + -1 - (2 ^ k + -1)) with (2 ^ k) by ring.
  apply Z.mod_small. lia.
Qed.

End BitFill.

(** * The table lookup: loop, re-check and bracket computation *)

Section Lookup.

Variable tbl : list double.
Variable base_clock : double.

(** A C++ array is not empty, and its element count fits an unsigned int. *)
Hypothesis table_size : 0 < Z.of_nat (length tbl) < 2 ^ U32.width.

Lemma last_index_unsigned :
  U32.sub (U32.wrap (Z.of_nat (length tbl))) 1 = Z.of_nat (length tbl) - 1.
Proof.
  unfold U32.sub, U32.wrap.
  rewrite (Z.mod_small (Z.of_nat (length tbl))) by lia.
  apply Z.mod_small. lia.
Qed.

Lemma search_from_ppow2 :
  match search (Z.to_nat U32.width) tbl (Z.of_nat (length tbl) - 1) base_clock
          (ppow2_of (Z.of_nat (length tbl) - 1))
          (ppow2_of (Z.of_nat (length tbl) - 1)) with
  | Ok Matched =>
      exists k s, read tbl k = Ok s /\ within_tolerance base_clock s = true
  | Ok (Settled f) => settles_at tbl base_clock f
  | Fault _ => False
  end.
Proof.
  set (last_index := Z.of_nat (length tbl) - 1).
  assert (Hlen : Z.of_nat (length tbl) = last_index + 1)
    by (unfold last_index; lia).
  destruct (Z.eq_dec last_index 0) as [E0|Hpos].
  - rewrite E0. change (ppow2_of 0) with 0. rewrite search_done.
    unfold settles_at. fold last_index. rewrite E0. auto with zarith.
  - assert (Hrange : 0 < last_index < 2 ^ U32.width)
      by (unfold last_index in *; lia).
    rewrite (ppow2_of_log2 last_index Hrange).
    pose proof (Z.log2_nonneg last_index) as Hk0.
    assert (Hk32 : Z.log2 last_index < U32.width)
      by (apply Z.log2_lt_pow2; lia).
    pose proof (Z.log2_spec last_index ltac:(lia)) as [_ Hhi].
    unfold Z.succ in Hhi.
    set (k := Z.log2 last_index) in *.
    pose proof (search_window tbl last_index base_clock Hlen (Z.to_nat k)
                  (Z.to_nat U32.width) 0) as W.
    rewrite Z2Nat.id in W by lia. change (0 + 1) with 1 in W.
    rewrite Z.mul_0_l, Z.mul_1_l, Z.add_0_l in W.
    specialize (W ltac:(unfold U32.width in *; lia) ltac:(lia) ltac:(lia)).
    destruct (search _ tbl last_index base_clock (2 ^ k) (2 ^ k)) as [[|f]|];
      unfold search_post in W; [exact W| |contradiction].
    destruct W as (Hf & _ & Hl & Hr). unfold settles_at. fold last_index.
    split; [exact Hf|]. split; [exact Hl|].
    destruct Hr as [Hr|[Hr|Hr]]; auto. left. lia.
Qed.

Lemma lookup_spec :
  exists r, lookup tbl base_clock = Ok r /\ lookup_outcome tbl base_clock r.
Proof.
  unfold lookup. rewrite last_index_unsigned.
  pose proof search_from_ppow2 as S.
  destruct (search _ tbl _ base_clock _ _) as [[|f]|];
    [| |contradiction]; cbn [bind].
  - destruct S as (k & s & Hk & Htol).
    exists Correct. split; [reflexivity|]. exact (found_in_loop _ _ k s Hk Htol).
  - pose proof S as (Hf & _ & _).
    destruct (read_in_bounds tbl f) as [s Hs]; [lia|].
    rewrite Hs. cbn [bind].
    destruct (eqb base_clock s) eqn:Heq.
    + exists Correct. split; [reflexivity|].
      exact (found_after_loop _ _ f s S Hs Heq).
    + destruct (ltb base_clock s) eqn:Hlt.
      * assert (Hsub : f <> 0 -> U32.sub f 1 = f - 1).
        { intros Hne. unfold U32.sub, U32.wrap. apply Z.mod_small. lia. }
        destruct (Z.eqb_spec f 0) as [E0|Hne].
        -- cbn [bind]. exists (Unknown (of_int 0) s). split; [reflexivity|].
           apply (unknown_below _ _ f s _ S Hs Heq Hlt).
           rewrite E0. reflexivity.
        -- rewrite (Hsub Hne).
           destruct (read_in_bounds tbl (f - 1)) as [low Hlow]; [lia|].
           rewrite Hlow. cbn [bind].
           exists (Unknown low s). split; [reflexivity|].
           apply (unknown_below _ _ f s _ S Hs Heq Hlt).
           destruct (Z.eqb_spec f 0); [contradiction|exact Hlow].
      * destruct (Z.ltb_spec f (Z.of_nat (length tbl) - 1)) as [Hin|Hend].
        -- assert (Hadd : U32.add f 1 = f + 1).
           { unfold U32.add, U32.wrap. apply Z.mod_small. lia. }
           rewrite Hadd.
           destruct (read_in_bounds tbl (f + 1)) as [high Hhigh]; [lia|].
           rewrite Hhigh. cbn [bind].
           exists (Unknown s high). split; [reflexivity|].
           apply (unknown_above _ _ f s _ S Hs Heq Hlt).
           destruct (Z.ltb_spec f (Z.of_nat (length tbl) - 1)); [exact Hhigh|lia].
        -- cbn [bind]. exists (Unknown s (of_int 0)). split; [reflexivity|].
           apply (unknown_above _ _ f s _ S Hs Heq Hlt).
           destruct (Z.ltb_spec f (Z.of_nat (length tbl) - 1)); [lia|reflexivity].
Qed.

End Lookup.

(** * Comparison of doubles *)

Section DoubleOrder.

Lemma ltb_irrefl (a : double) : ltb a a = false.
Proof. destruct a; by_cases_on_compare. Qed.

Lemma ltb_asym (a b : double) : ltb a b = true -> ltb b a = false.
Proof. destruct a, b; by_cases_on_compare. Qed.

Lemma ltb_not_eqb (a b : double) : ltb a b = true -> eqb a b = false.
Proof. destruct a, b; by_cases_on_compare. Qed.

Lemma ltb_not_eqb_sym (a b : double) : ltb a b = true -> eqb b a = false.
Proof. destruct a, b; by_cases_on_compare. Qed.

Lemma ltb_trans (a b c : double) :
  ltb a b = true -> ltb b c = true -> ltb a c = true.
Proof. destruct a, b, c; by_cases_on_compare. Qed.

(** [==] on a value that is not a zero identifies the two doubles. *)
Lemma eqb_eq (a b : double) :
  eqb a b = true -> is_zero b = false -> a = b.
Proof.
  destruct a, b; unfold is_zero; try discriminate;
    by_cases_on_compare; intros; f_equal; lia.
Qed.

Lemma eqb_refl (v : double) : is_nan v = false -> eqb v v = true.
Proof.
  destruct v as [[]|[]| |[] m e]; try discriminate; intros _;
    try reflexivity; unfold eqb, SFeqb, SFcompare;
    rewrite Z.compare_refl; change (Pos.compare_cont Eq m m) with (Pos.compare m m);
    rewrite Pos.compare_refl; reflexivity.
Qed.

Lemma eqb_not_nan (v s : double) : eqb v s = true -> is_nan v = false.
Proof. destruct v; [reflexivity..|discriminate|reflexivity]. Qed.

Lemma entry_ok_finite (s : double) : entry_ok s = true -> is_finite s = true.
Proof. destruct s as [| | |[] m e]; cbn; congruence. Qed.

Lemma entry_ok_not_zero (s : double) : entry_ok s = true -> is_zero s = false.
Proof. destruct s as [| | |[] m e]; cbn; congruence. Qed.

Lemma entry_ok_positive (s : double) : entry_ok s = true -> ltb (of_int 0) s = true.
Proof. destruct s as [| | |[] m e]; cbn; congruence. Qed.

End DoubleOrder.

(** * The tolerance test on special values *)

Section Tolerance.

Lemma two_epsilon :
  mul (of_int 2) DBL_EPSILON = S754_finite false 4503599627370496 (-103).
Proof. vm_compute. reflexivity. Qed.

Lemma within_tolerance_nan (s : double) : within_tolerance S754_nan s = false.
Proof. reflexivity. Qed.

(** A zero candidate divides by zero: the quotient is infinite or NaN. *)
Lemma within_tolerance_zero (v s : double) :
  is_zero v = true -> within_tolerance v s = false.
Proof.
  destruct v as [sv| | |]; try discriminate. intros _.
  unfold within_tolerance. rewrite two_epsilon.
  destruct s as [[]|[]| |[] m e], sv; reflexivity.
Qed.

(** A finite candidate equal to the entry has difference zero. *)
Lemma within_tolerance_refl (s : double) :
  is_finite s = true -> within_tolerance s s = true.
Proof.
  destruct s as [| | |sx m e]; try discriminate. intros _.
  unfold within_tolerance. rewrite two_epsilon.
  unfold sub, SFsub. rewrite Z.min_id.
  unfold shl_align. rewrite Z.sub_diag. cbn [fst].
  destruct sx; reflexivity.
Qed.

Lemma within_tolerance_not_nan (v s : double) :
  within_tolerance v s = true -> is_nan v = false.
Proof. destruct v; [reflexivity..|discriminate|reflexivity]. Qed.

Lemma within_tolerance_not_zero (v s : double) :
  within_tolerance v s = true -> is_zero v = false.
Proof.
  intros H. destruct (is_zero v) eqn:E; [|reflexivity].
  rewrite (within_tolerance_zero v s E) in H. discriminate.
Qed.

End Tolerance.

(** * One call of validate *)

Section OneCall.

Variable tbl : list double.

Lemma validate_on_cached (st : xtal_state) (v : double) :
  eqb v (last_correct_value st) = true -> validate_on tbl st v = Ok (true, st).
Proof. intros H. unfold validate_on. now rewrite H. Qed.

Lemma validate_on_inv (st : xtal_state) (v : double) (b : bool) (st' : xtal_state) :
  validate_on tbl st v = Ok (b, st') -> call_outcome tbl st v b st'.
Proof.
  unfold validate_on.
  destruct (eqb v (last_correct_value st)) eqn:Hc.
  - intros [= <- <-]. now constructor.
  - destruct (lookup tbl v) as [[|low high]|] eqn:Hl; cbn [bind].
    + intros [= <- <-]. now constructor.
    + intros [= <- <-]. now constructor.
    + discriminate.
Qed.

Lemma validate_on_unknown (st : xtal_state) (v low high : double) :
  eqb v (last_correct_value st) = false ->
  lookup tbl v = Ok (Unknown low high) ->
  validate_on tbl st v = Ok (false, set_xtal_error st low high).
Proof. intros Hc Hl. unfold validate_on. now rewrite Hc, Hl. Qed.

Lemma validate_on_correct (st : xtal_state) (v : double) :
  eqb v (last_correct_value st) = false ->
  lookup tbl v = Ok Correct ->
  validate_on tbl st v = Ok (true, set_last_correct_value st v).
Proof. intros Hc Hl. unfold validate_on. now rewrite Hc, Hl. Qed.

Hypothesis table_size : 0 < Z.of_nat (length tbl) < 2 ^ U32.width.

Lemma validate_on_total (st : xtal_state) (v : double) :
  exists b st', validate_on tbl st v = Ok (b, st').
Proof.
  unfold validate_on. destruct (eqb v (last_correct_value st)); [eauto|].
  destruct (lookup_spec tbl v table_size) as ([|low high] & -> & _);
    cbn [bind]; eauto.
Qed.

End OneCall.

(** * Magnitudes of rounded results *)

Section Magnitude.

Lemma digits2_pos_size (p : positive) : digits2_pos p = Pos.size p.
Proof. induction p; cbn; congruence. Qed.

Lemma digits2_pos_log2 (p : positive) :
  Z.pos (digits2_pos p) = Z.log2 (Z.pos p) + 1.
Proof.
  rewrite digits2_pos_size.
  destruct p; cbn [Pos.size Z.log2]; rewrite ?Pos2Z.inj_succ; lia.
Qed.

Lemma Zdigits2_log2 (m : Z) : 0 < m -> Zdigits2 m = Z.log2 m + 1.
Proof. destruct m; try lia. intros _. apply digits2_pos_log2. Qed.

Lemma Zdigits2_le (a b : Z) : 0 < a <= b -> Zdigits2 a <= Zdigits2 b.
Proof.
  intros H. rewrite !Zdigits2_log2 by lia.
  pose proof (Z.log2_le_mono a b). lia.
Qed.

Lemma shr_1_m (mrs : shr_record) :
  0 <= shr_m mrs -> shr_m (shr_1 mrs) = Z.shiftr (shr_m mrs) 1.
Proof.
  destruct mrs as [m r s]. cbn [shr_m]. intros Hm.
  rewrite Z.shiftr_div_pow2 by lia. change (2 ^ 1) with 2.
  rewrite <- Z.div2_div.
  destruct m as [|[p|p|]|p]; try lia; reflexivity.
Qed.

Lemma iter_shr_1_m (p : positive) :
  forall mrs, 0 <= shr_m mrs ->
    shr_m (iter_pos shr_1 p mrs) = Z.shiftr (shr_m mrs) (Z.pos p).
Proof.
  induction p as [p IH|p IH|]; intros mrs Hm; cbn [iter_pos].
  - assert (H1 : 0 <= shr_m (shr_1 mrs))
      by (rewrite shr_1_m by lia; apply Z.shiftr_nonneg; lia).
    assert (H2 : 0 <= shr_m (iter_pos shr_1 p (shr_1 mrs)))
      by (rewrite IH by lia; apply Z.shiftr_nonneg; lia).
    rewrite IH, IH, shr_1_m by lia.
    rewrite !Z.shiftr_shiftr by lia. f_equal. lia.
  - assert (H2 : 0 <= shr_m (iter_pos shr_1 p mrs))
      by (rewrite IH by lia; apply Z.shiftr_nonneg; lia).
    rewrite IH, IH by lia.
    rewrite !Z.shiftr_shiftr by lia. f_equal. lia.
  - apply shr_1_m. exact Hm.
Qed.

Lemma shr_record_of_loc_m (m : Z) (l : location) :
  shr_m (shr_record_of_loc m l) = m.
Proof. destruct l as [|[]]; reflexivity. Qed.

Lemma round_nearest_even_bounds (m : Z) (l : location) :
  m <= round_nearest_even m l <= m + 1.
Proof. destruct l as [|[]]; cbn; try destruct (Z.even m); lia. Qed.

(** One shift to the canonical exponent keeps a number that is above the
    smallest subnormal positive, and keeps its magnitude. *)
Lemma shr_fexp_magnitude (m e : Z) (l : location) :
  0 < m -> emin prec emax < Zdigits2 m + e ->
  let r := shr_fexp prec emax m e l in
  0 < shr_m (fst r)
  /\ Zdigits2 (shr_m (fst r)) + snd r = Zdigits2 m + e
  /\ fexp prec emax (Zdigits2 m + e) <= snd r
  /\ e <= snd r.
Proof.
  intros Hm Hmag. unfold shr_fexp, shr.
  rewrite Zdigits2_log2 in * by lia.
  pose proof (Z.log2_nonneg m) as Hlog.
  unfold fexp, emin, prec, emax in *.
  destruct (Z.max (Z.log2 m + 1 + e - 53) (3 - 1024 - 53) - e) as [|p|p] eqn:En;
    cbn [fst snd]; rewrite ?shr_record_of_loc_m.
  - rewrite Zdigits2_log2 by lia. lia.
  - rewrite iter_shr_1_m by (rewrite shr_record_of_loc_m; lia).
    rewrite shr_record_of_loc_m.
    assert (Hp : Z.pos p <= Z.log2 m) by lia.
    assert (Hpos : 0 < Z.shiftr m (Z.pos p)).
    { rewrite Z.shiftr_div_pow2 by lia.
      apply Z.div_str_pos. split; [apply Z.pow_pos_nonneg; lia|].
      apply Z.log2_le_pow2; lia. }
    rewrite Zdigits2_log2 by lia.
    rewrite Z.log2_shiftr by lia. lia.
  - rewrite Zdigits2_log2 by lia. lia.
Qed.

Lemma binary_round_aux_magnitude (sx : bool) (mx ex : Z) (lx : location) :
  0 < mx -> emin prec emax < Zdigits2 mx + ex ->
  match binary_round_aux prec emax sx mx ex lx with
  | S754_finite _ m e =>
      Zdigits2 mx + ex <= Z.pos (digits2_pos m) + e
      /\ fexp prec emax (Zdigits2 mx + ex) <= e
  | S754_infinity _ => True
  | _ => False
  end.
Proof.
  intros Hm Hmag. unfold binary_round_aux.
  pose proof (shr_fexp_magnitude mx ex lx Hm Hmag) as S1. cbv zeta in S1.
  destruct (shr_fexp prec emax mx ex lx) as [mrs' e'].
  cbn [fst snd] in S1. destruct S1 as (Hpos1 & Hmag1 & Hfexp1 & He1).
  pose proof (round_nearest_even_bounds (shr_m mrs') (loc_of_shr_record mrs')) as Hr.
  set (m'' := round_nearest_even (shr_m mrs') (loc_of_shr_record mrs')) in *.
  assert (Hd : Zdigits2 (shr_m mrs') <= Zdigits2 m'')
    by (apply Zdigits2_le; lia).
  pose proof (shr_fexp_magnitude m'' e' loc_Exact ltac:(lia) ltac:(lia)) as S2.
  cbv zeta in S2.
  destruct (shr_fexp prec emax m'' e' loc_Exact) as [mrs'' e''].
  cbn [fst snd] in S2. destruct S2 as (Hpos2 & Hmag2 & Hfexp2 & He2).
  destruct (shr_m mrs'') as [|m|m]; try lia.
  destruct (e'' <=? emax - prec); [|exact I].
  cbn [Zdigits2] in Hmag2. lia.
Qed.

Lemma shift_pos_pow2 (d m : positive) :
  Z.pos (Pos.iter xO m d) = Z.pos m * 2 ^ Z.pos d.
Proof.
  rewrite <- Z.shiftl_mul_pow2 by lia. cbn [Z.shiftl].
  apply (Pos.iter_swap_gen _ _ Z.pos xO (Z.mul 2)). reflexivity.
Qed.

(** Alignment to a lower exponent keeps the value. *)
Lemma shl_align_value (m : positive) (e e' : Z) :
  Z.pos (fst (shl_align m e e')) * 2 ^ (snd (shl_align m e e') - Z.min e e')
  = Z.pos m * 2 ^ (e - Z.min e e')
  /\ snd (shl_align m e e') = Z.min e e'.
Proof.
  unfold shl_align. destruct (e' - e) as [|d|d] eqn:Ed; cbn [fst snd].
  - split; [|lia]. reflexivity.
  - split; [|lia]. reflexivity.
  - rewrite shift_pos_pow2. split; [|lia].
    replace (e' - Z.min e e') with 0 by lia.
    replace (e - Z.min e e') with (Z.pos d) by lia.
    rewrite Z.pow_0_r. ring.
Qed.

Lemma shl_align_fst (m : positive) (e e' : Z) :
  e' <= e -> Z.pos (fst (shl_align m e e')) = Z.pos m * 2 ^ (e - e').
Proof.
  intros H. destruct (shl_align_value m e e') as [Hv Hs].
  rewrite Hs, Z.sub_diag, Z.pow_0_r, Z.mul_1_r in Hv.
  rewrite Hv. f_equal. f_equal. lia.
Qed.

Lemma shl_align_magnitude (m : positive) (e e' : Z) :
  Z.pos (digits2_pos (fst (shl_align m e e'))) + snd (shl_align m e e')
  = Z.pos (digits2_pos m) + e.
Proof.
  unfold shl_align. destruct (e' - e) as [|d|d] eqn:Ed; cbn [fst snd]; try reflexivity.
  rewrite !digits2_pos_log2, shift_pos_pow2.
  rewrite Z.log2_mul_pow2 by lia. lia.
Qed.

Lemma binary_round_magnitude (sx : bool) (mx : positive) (ex : Z) :
  emin prec emax < Z.pos (digits2_pos mx) + ex ->
  match binary_round prec emax sx mx ex with
  | S754_finite _ m e => Z.pos (digits2_pos mx) + ex <= Z.pos (digits2_pos m) + e
  | S754_infinity _ => True
  | _ => False
  end.
Proof.
  intros Hmag. unfold binary_round.
  pose proof (shl_align_magnitude mx ex
                (fexp prec emax (Z.pos (digits2_pos mx) + ex))) as Ha.
  destruct (shl_align mx ex _) as [mz ez]. cbn [fst snd] in Ha.
  pose proof (binary_round_aux_magnitude sx (Z.pos mz) ez loc_Exact
                ltac:(lia) ltac:(cbn [Zdigits2]; lia)) as Hr.
  destruct (binary_round_aux prec emax sx (Z.pos mz) ez loc_Exact); auto.
  cbn [Zdigits2] in Hr. lia.
Qed.

Lemma scaled_pos (m : positive) (e : Z) : emin prec emax <= e -> 0 < scaled m e.
Proof.
  intros He. unfold scaled.
  apply Z.mul_pos_pos; [lia|]. apply Z.pow_pos_nonneg; lia.
Qed.

Lemma scaled_log2 (m : positive) (e : Z) :
  emin prec emax <= e ->
  Z.log2 (scaled m e) + 1 = Z.pos (digits2_pos m) + e - emin prec emax.
Proof.
  intros He. unfold scaled.
  rewrite Z.log2_mul_pow2, digits2_pos_log2 by lia. lia.
Qed.

(** The difference of two finite positive doubles has at least the
    magnitude of the exact difference. *)
Lemma sub_magnitude (mv : positive) (ev : Z) (ms : positive) (es : Z) :
  emin prec emax <= ev -> emin prec emax <= es ->
  scaled mv ev <> scaled ms es ->
  match sub (S754_finite false mv ev) (S754_finite false ms es) with
  | S754_finite _ m e =>
      Z.log2 (Z.abs (scaled mv ev - scaled ms es)) + 1
      <= Z.pos (digits2_pos m) + e - emin prec emax
  | S754_infinity _ => True
  | _ => False
  end.
Proof.
  intros Hev Hes Hne. unfold sub, SFsub. cbn [cond_Zopp].
  set (ez := Z.min ev es).
  rewrite (shl_align_fst mv ev ez), (shl_align_fst ms es ez) by lia.
  set (D := Z.pos mv * 2 ^ (ev - ez) - Z.pos ms * 2 ^ (es - ez)).
  assert (HD : scaled mv ev - scaled ms es = D * 2 ^ (ez - emin prec emax)).
  { unfold D, scaled. rewrite Z.mul_sub_distr_r, <- !Z.mul_assoc.
    rewrite <- !Z.pow_add_r by lia. f_equal; f_equal; f_equal; lia. }
  assert (Hpow : 0 < 2 ^ (ez - emin prec emax)) by (apply Z.pow_pos_nonneg; lia).
  assert (HD0 : D <> 0) by (intros E0; rewrite E0 in HD; lia).
  rewrite HD.
  destruct D as [|p|p]; [contradiction| |]; unfold binary_normalize.
  - pose proof (binary_round_magnitude false p ez) as Hr.
    pose proof (digits2_pos_log2 p). pose proof (Z.log2_nonneg (Z.pos p)).
    specialize (Hr ltac:(lia)).
    destruct (binary_round prec emax false p ez); auto.
    rewrite Z.abs_eq by lia.
    rewrite Z.log2_mul_pow2 by lia. lia.
  - pose proof (binary_round_magnitude true p ez) as Hr.
    pose proof (digits2_pos_log2 p). pose proof (Z.log2_nonneg (Z.pos p)).
    specialize (Hr ltac:(lia)).
    destruct (binary_round prec emax true p ez); auto.
    replace (Z.abs (Z.neg p * 2 ^ (ez - emin prec emax)))
      with (Z.pos p * 2 ^ (ez - emin prec emax)) by lia.
    rewrite Z.log2_mul_pow2 by lia. lia.
Qed.

(** The quotient of two finite doubles whose magnitudes differ by [M] has
    an exponent of at least [M - prec], when that is a normal exponent. *)
Lemma div_exponent (sd : bool) (md : positive) (ed : Z) (mv : positive) (ev : Z) :
  emin prec emax + prec
  <= Z.pos (digits2_pos md) + ed - (Z.pos (digits2_pos mv) + ev) ->
  match div (S754_finite sd md ed) (S754_finite false mv ev) with
  | S754_finite _ m e =>
      Z.pos (digits2_pos md) + ed - (Z.pos (digits2_pos mv) + ev) - prec <= e
  | S754_infinity _ => True
  | _ => False
  end.
Proof.
  intros HM. unfold div, SFdiv, SFdiv_core_binary. cbn [Zdigits2].
  set (d1 := Z.pos (digits2_pos md)) in *.
  set (d2 := Z.pos (digits2_pos mv)) in *.
  set (e' := Z.min (fexp prec emax (d1 + ed - (d2 + ev))) (ed - ev)).
  assert (Hfexp : fexp prec emax (d1 + ed - (d2 + ev)) = d1 + ed - (d2 + ev) - prec)
    by (unfold fexp; lia).
  set (s := ed - ev - e').
  assert (Hs : 0 <= s /\ prec - d1 + d2 <= s) by (unfold s, e'; lia).
  assert (Hd1 : d1 = Z.log2 (Z.pos md) + 1) by apply digits2_pos_log2.
  assert (Hd2 : d2 = Z.log2 (Z.pos mv) + 1) by apply digits2_pos_log2.
  pose proof (Z.log2_nonneg (Z.pos md)) as Hl1.
  pose proof (Z.log2_nonneg (Z.pos mv)) as Hl2.
  set (m' := match s with
             | 0 => Z.pos md
             | Z.pos _ => Z.shiftl (Z.pos md) s
             | Z.neg _ => 0
             end).
  assert (Hm' : m' = Z.pos md * 2 ^ s).
  { unfold m'. destruct s as [|p|p] eqn:Es; try lia.
    apply Z.shiftl_mul_pow2. lia. }
  set (t := d1 + s - d2 - 1).
  assert (Ht : prec - 1 <= t) by (unfold t; lia).
  assert (Hq : 2 ^ t <= m' / Z.pos mv).
  { apply Z.div_le_lower_bound; [lia|].
    assert (H1 : Z.pos mv < 2 ^ d2).
    { apply Z.log2_lt_pow2; lia. }
    assert (H2 : 2 ^ (d1 - 1) <= Z.pos md).
    { apply Z.log2_le_pow2; lia. }
    assert (H3 : 2 ^ t * 2 ^ d2 = 2 ^ (d1 - 1) * 2 ^ s).
    { rewrite <- !Z.pow_add_r by (unfold prec in *; lia). f_equal. unfold t. lia. }
    assert (H4 : 0 < 2 ^ t) by (apply Z.pow_pos_nonneg; unfold prec in *; lia).
    assert (H5 : 0 < 2 ^ s) by (apply Z.pow_pos_nonneg; lia).
    rewrite Hm'. nia. }
  unfold Z.div in Hq.
  destruct (Z.div_eucl m' (Z.pos mv)) as [q r].
  assert (H4 : 0 < 2 ^ t) by (apply Z.pow_pos_nonneg; unfold prec in *; lia).
  assert (Hlq : t <= Z.log2 q) by (apply Z.log2_le_pow2; lia).
  pose proof (binary_round_aux_magnitude (xorb sd false) q e'
                (new_location (Z.pos mv) r) ltac:(lia)) as Hr.
  rewrite Zdigits2_log2 in Hr by lia.
  specialize (Hr ltac:(unfold t, s, emin, prec, emax in *; lia)).
  destruct (binary_round_aux prec emax (xorb sd false) q e' _); auto.
  destruct Hr as [_ Hr]. unfold fexp in Hr. unfold t, s in *. lia.
Qed.

Lemma leb_two_epsilon (r : double) :
  match r with
  | S754_finite _ _ e => -102 <= e
  | S754_infinity _ => True
  | _ => False
  end ->
  leb (abs r) (mul (of_int 2) DBL_EPSILON) = false.
Proof.
  rewrite two_epsilon. destruct r as [| | |sr m e]; try contradiction.
  - reflexivity.
  - intros He. unfold leb, abs, SFabs, SFleb, SFcompare.
    destruct (Z.compare_spec e (-103)); [lia|lia|reflexivity].
Qed.

(** No tolerance match when the exact difference is less than 50 binary
    digits shorter than the candidate. *)
Lemma within_tolerance_far (mv : positive) (ev : Z) (ms : positive) (es : Z) :
  emin prec emax <= ev -> emin prec emax <= es ->
  scaled mv ev <> scaled ms es ->
  Z.log2 (scaled mv ev) <= Z.log2 (Z.abs (scaled mv ev - scaled ms es)) + 49 ->
  within_tolerance (S754_finite false mv ev) (S754_finite false ms es) = false.
Proof.
  intros Hev Hes Hne Hfar. unfold within_tolerance.
  pose proof (sub_magnitude mv ev ms es Hev Hes Hne) as Hd.
  pose proof (scaled_log2 mv ev Hev) as Hv.
  destruct (sub (S754_finite false mv ev) (S754_finite false ms es))
    as [| sd | |sd md ed]; try contradiction.
  - reflexivity.
  - apply leb_two_epsilon.
    pose proof (div_exponent sd md ed mv ev) as Hq.
    specialize (Hq ltac:(unfold emin, prec, emax in *; lia)).
    destruct (div (S754_finite sd md ed) (S754_finite false mv ev)); auto.
    unfold emin, prec, emax in *. lia.
Qed.

Lemma bounded_inv (m : positive) (e : Z) :
  bounded prec emax m e = true ->
  emin prec emax <= e
  /\ Z.pos (digits2_pos m) <= prec
  /\ (emin prec emax < e -> Z.pos (digits2_pos m) = prec).
Proof.
  unfold bounded, canonical_mantissa, fexp. intros H.
  apply andb_true_iff in H as [H _]. apply Z.eqb_eq in H. lia.
Qed.

(** On doubles the comparison of exponent, then mantissa, is the
    comparison of values. *)
Lemma ltb_scaled (ma : positive) (ea : Z) (mb : positive) (eb : Z) :
  bounded prec emax ma ea = true -> bounded prec emax mb eb = true ->
  ltb (S754_finite false ma ea) (S754_finite false mb eb) = true ->
  scaled ma ea < scaled mb eb.
Proof.
  intros Ha Hb. apply bounded_inv in Ha as (Hea & Hda & _).
  apply bounded_inv in Hb as (Heb & Hdb & Hnb).
  unfold ltb, SFltb, SFcompare.
  change (Pos.compare_cont Eq) with Pos.compare.
  destruct (Z.compare_spec ea eb) as [->|Hlt|Hgt]; [| |discriminate].
  - destruct (Pos.compare_spec ma mb); try discriminate. intros _.
    unfold scaled. apply Z.mul_lt_mono_pos_r; [apply Z.pow_pos_nonneg|]; lia.
  - intros _. apply Z.log2_lt_cancel.
    pose proof (scaled_log2 ma ea Hea). pose proof (scaled_log2 mb eb Heb).
    specialize (Hnb ltac:(lia)). lia.
Qed.

Lemma far_above (S B V : Z) :
  0 < S < B -> B < V ->
  Z.log2 B <= Z.log2 (B - S) + 47 ->
  Z.log2 V <= Z.log2 (Z.abs (V - S)) + 49.
Proof.
  intros HS HB Hsep. rewrite Z.abs_eq by lia.
  destruct (Z.le_gt_cases (Z.log2 V) (Z.log2 (B - S) + 49)) as [Hle|Hgt].
  - pose proof (Z.log2_le_mono (B - S) (V - S)). lia.
  - pose proof (Z.log2_nonneg (B - S)) as H0.
    set (k := Z.log2 V) in *.
    assert (HV : 2 ^ k <= V) by (apply Z.log2_le_pow2; [lia|reflexivity]).
    assert (HBk : B < 2 ^ (k - 2)) by (apply Z.log2_lt_pow2; lia).
    assert (Hk : 2 ^ k = 4 * 2 ^ (k - 2)).
    { replace k with (2 + (k - 2)) at 1 by lia.
      rewrite Z.pow_add_r by lia. reflexivity. }
    assert (Hk1 : 2 ^ (k - 1) = 2 * 2 ^ (k - 2)).
    { replace (k - 1) with (1 + (k - 2)) by lia.
      rewrite Z.pow_add_r by lia. reflexivity. }
    assert (Hl : k - 1 <= Z.log2 (V - S)) by (apply Z.log2_le_pow2; lia).
    lia.
Qed.

Lemma far_below (V A S : Z) :
  0 < V < A -> A < S ->
  Z.log2 S <= Z.log2 (S - A) + 47 ->
  Z.log2 V <= Z.log2 (Z.abs (V - S)) + 49.
Proof.
  intros HV HA Hsep. rewrite Z.abs_neq by lia.
  replace (- (V - S)) with (S - V) by ring.
  pose proof (Z.log2_le_mono (S - A) (S - V)).
  pose proof (Z.log2_le_mono V S). lia.
Qed.

Lemma separated_inv (ma : positive) (ea : Z) (mb : positive) (eb : Z) :
  separated (S754_finite false ma ea) (S754_finite false mb eb) = true ->
  scaled ma ea < scaled mb eb
  /\ Z.log2 (scaled mb eb) <= Z.log2 (scaled mb eb - scaled ma ea) + 47.
Proof.
  unfold separated. intros H. apply andb_true_iff in H as [H1 H2].
  apply Z.ltb_lt in H1. apply Z.leb_le in H2. auto.
Qed.

(** A candidate above the upper neighbour of an entry is out of the
    entry's tolerance. *)
Lemma tolerance_above (v s b : double) :
  is_double v -> entry_ok s = true -> entry_ok b = true ->
  separated s b = true -> ltb b v = true ->
  within_tolerance v s = false.
Proof.
  intros Hv Hs Hb Hsep Hlt.
  destruct s as [| | |[] ms es]; try discriminate.
  destruct b as [| | |[] mb eb]; try discriminate.
  cbn [entry_ok] in Hs, Hb.
  destruct v as [sv|[]| |[] mv ev]; try discriminate.
  - reflexivity.
  - unfold is_double in Hv. cbn [valid_binary] in Hv.
    pose proof (ltb_scaled mb eb mv ev Hb Hv Hlt) as HBV.
    apply separated_inv in Hsep as [HSB Hsep].
    pose proof (bounded_inv _ _ Hs) as (Hes & _).
    pose proof (bounded_inv _ _ Hv) as (Hev & _).
    pose proof (scaled_pos ms es Hes).
    apply within_tolerance_far; try lia.
    apply (far_above _ (scaled mb eb)); lia.
Qed.

(** A positive candidate below the lower neighbour of an entry is out of
    the entry's tolerance. *)
Lemma tolerance_below (v a s : double) :
  is_double v -> ltb (of_int 0) v = true ->
  entry_ok a = true -> entry_ok s = true ->
  separated a s = true -> ltb v a = true ->
  within_tolerance v s = false.
Proof.
  intros Hv Hpos Ha Hs Hsep Hlt.
  destruct a as [| | |[] ma ea]; try discriminate.
  destruct s as [| | |[] ms es]; try discriminate.
  cbn [entry_ok] in Ha, Hs.
  destruct v as [sv|[]| |[] mv ev]; try discriminate.
  unfold is_double in Hv. cbn [valid_binary] in Hv.
  pose proof (ltb_scaled mv ev ma ea Hv Ha Hlt) as HVA.
  apply separated_inv in Hsep as [HAS Hsep].
  pose proof (bounded_inv _ _ Hs) as (Hes & _).
  pose proof (bounded_inv _ _ Hv) as (Hev & _).
  pose proof (scaled_pos mv ev Hev).
  apply within_tolerance_far; try lia.
  apply (far_below _ (scaled ma ea)); lia.
Qed.

End Magnitude.

(** * Curated tables *)

Lemma curated_inv (tbl : list double) :
  curated tbl = true ->
  0 < Z.of_nat (length tbl) < 2 ^ U32.width
  /\ (forall s, In s tbl -> entry_ok s = true)
  /\ adjacent ltb tbl = true
  /\ adjacent separated tbl = true.
Proof.
  unfold curated. rewrite !andb_true_iff, !Z.ltb_lt, forallb_forall.
  intros ((((H1 & H2) & H3) & H4) & H5). auto.
Qed.

Lemma adjacent_nth (P : double -> double -> bool) (l : list double) :
  adjacent P l = true ->
  forall (i : nat) (a b : double),
    nth_error l i = Some a -> nth_error l (S i) = Some b -> P a b = true.
Proof.
  induction l as [|x [|y l] IH]; intros Hadj i a b Ha Hb.
  - destruct i; discriminate.
  - destruct i as [|[|i]]; discriminate.
  - cbn [adjacent] in Hadj. apply andb_true_iff in Hadj as [Hxy Hrest].
    destruct i as [|i].
    + cbn in Ha, Hb. congruence.
    + apply (IH Hrest i); assumption.
Qed.

Section Curated.

Variable tbl : list double.
Hypothesis tbl_curated : curated tbl = true.

Lemma curated_size : 0 < Z.of_nat (length tbl) < 2 ^ U32.width.
Proof. exact (proj1 (curated_inv tbl tbl_curated)). Qed.

Lemma curated_entry (k : Z) (s : double) : read tbl k = Ok s -> entry_ok s = true.
Proof.
  intros H. apply read_In in H.
  exact (proj1 (proj2 (curated_inv tbl tbl_curated)) s H).
Qed.

Lemma curated_adjacent (P : double -> double -> bool) (k : Z) (a b : double) :
  adjacent P tbl = true ->
  read tbl k = Ok a -> read tbl (k + 1) = Ok b -> P a b = true.
Proof.
  intros Hadj Ha Hb.
  apply read_inv in Ha as [Hk Ha]. apply read_inv in Hb as [_ Hb].
  replace (Z.to_nat (k + 1)) with (S (Z.to_nat k)) in Hb by lia.
  exact (adjacent_nth P tbl Hadj _ a b Ha Hb).
Qed.

Lemma curated_step (k : Z) (a b : double) :
  read tbl k = Ok a -> read tbl (k + 1) = Ok b ->
  ltb a b = true /\ separated a b = true.
Proof.
  intros Ha Hb.
  destruct (curated_inv tbl tbl_curated) as (_ & _ & Hasc & Hsep).
  split; eapply curated_adjacent; eassumption.
Qed.

(** The table is strictly ascending. *)
Lemma curated_ascending (n : nat) :
  forall (i : Z) (a b : double),
    read tbl i = Ok a -> read tbl (i + 1 + Z.of_nat n) = Ok b -> ltb a b = true.
Proof.
  induction n as [|n IH]; intros i a b Ha Hb.
  - rewrite Z.add_0_r in Hb. exact (proj1 (curated_step i a b Ha Hb)).
  - pose proof (read_inv _ _ _ Ha) as [Hi _].
    pose proof (read_inv _ _ _ Hb) as [Hj _].
    destruct (read_in_bounds tbl (i + 1 + Z.of_nat n)) as [c Hc]; [lia|].
    apply (ltb_trans a c b).
    + exact (IH i a c Ha Hc).
    + apply (curated_step (i + 1 + Z.of_nat n) c b Hc).
      rewrite <- Hb. f_equal. lia.
Qed.

Lemma read_lt (i j : Z) (a b : double) :
  read tbl i = Ok a -> read tbl j = Ok b -> i < j -> ltb a b = true.
Proof.
  intros Ha Hb Hij. apply (curated_ascending (Z.to_nat (j - i - 1)) i a b Ha).
  rewrite <- Hb. f_equal. lia.
Qed.

Lemma read_le_lt (i j : Z) (a b v : double) :
  read tbl i = Ok a -> read tbl j = Ok b -> i <= j ->
  ltb b v = true -> ltb a v = true.
Proof.
  intros Ha Hb Hij Hlt. destruct (Z.eq_dec i j) as [->|Hne].
  - congruence.
  - apply (ltb_trans a b v); [|exact Hlt]. apply (read_lt i j); auto. lia.
Qed.

Lemma read_lt_le (i j : Z) (a b v : double) :
  read tbl i = Ok a -> read tbl j = Ok b -> i <= j ->
  ltb v a = true -> ltb v b = true.
Proof.
  intros Ha Hb Hij Hlt. destruct (Z.eq_dec i j) as [->|Hne].
  - congruence.
  - apply (ltb_trans v a b); [exact Hlt|]. apply (read_lt i j); auto. lia.
Qed.

Section Candidate.

Variable v : double.
Hypothesis v_double : is_double v.

(** Entries to the left of an entry below the candidate do not match. *)
Lemma no_match_left (i : Z) (lo : double) :
  read tbl i = Ok lo -> ltb lo v = true ->
  forall (k : Z) (s : double),
    k < i -> read tbl k = Ok s -> within_tolerance v s = false.
Proof.
  intros Hlo Hlt k s Hk Hs.
  pose proof (read_inv _ _ _ Hlo) as [Hi _].
  pose proof (read_inv _ _ _ Hs) as [Hk0 _].
  destruct (read_in_bounds tbl (k + 1)) as [b Hb]; [lia|].
  destruct (curated_step k s b Hs Hb) as [_ Hsep].
  apply (tolerance_above v s b); eauto using curated_entry.
  apply (read_le_lt (k + 1) i b lo); auto. lia.
Qed.

(** Entries to the right of an entry above a positive candidate do not
    match. *)
Lemma no_match_right (i : Z) (hi : double) :
  ltb (of_int 0) v = true ->
  read tbl i = Ok hi -> ltb v hi = true ->
  forall (k : Z) (s : double),
    i < k -> read tbl k = Ok s -> within_tolerance v s = false.
Proof.
  intros Hpos Hhi Hlt k s Hk Hs.
  pose proof (read_inv _ _ _ Hhi) as [Hi _].
  pose proof (read_inv _ _ _ Hs) as [Hk0 _].
  destruct (read_in_bounds tbl (k - 1)) as [a Ha]; [lia|].
  assert (Hs' : read tbl (k - 1 + 1) = Ok s) by (rewrite <- Hs; f_equal; lia).
  destruct (curated_step (k - 1) a s Ha Hs') as [_ Hsep].
  apply (tolerance_below v a s); eauto using curated_entry.
  apply (read_lt_le i (k - 1) hi a); auto. lia.
Qed.

End Candidate.

(** ** Where the loop settles *)

Lemma settles_between (v : double) (i f : Z) (lo hi : double) :
  read tbl i = Ok lo -> read tbl (i + 1) = Ok hi ->
  ltb lo v = true -> ltb v hi = true ->
  settles_at tbl v f -> f = i.
Proof.
  intros Hlo Hhi Hlt Hgt (Hf & Hleft & Hright).
  pose proof (read_inv _ _ _ Hlo) as [Hi _].
  pose proof (read_inv _ _ _ Hhi) as [Hi1 _].
  assert (Hle : f <= i).
  { destruct Hleft as [->|(s & Hs & _ & Habove)]; [lia|].
    destruct (Z.le_gt_cases f i) as [|Hfi]; [assumption|exfalso].
    unfold gtb in Habove.
    assert (Hvs : ltb v s = true)
      by (apply (read_lt_le (i + 1) f hi s); auto; lia).
    rewrite (ltb_asym _ _ Hvs) in Habove. discriminate. }
  assert (Hge : i <= f).
  { destruct Hright as [->|(s & Hs & _ & Hbelow)]; [lia|].
    destruct (Z.le_gt_cases i f) as [|Hfi]; [assumption|exfalso].
    unfold gtb in Hbelow.
    assert (Hsv : ltb s v = true)
      by (apply (read_le_lt (f + 1) i s lo); auto; lia).
    congruence. }
  lia.
Qed.

Lemma settles_below_all (v : double) (f : Z) (s0 : double) :
  read tbl 0 = Ok s0 -> ltb v s0 = true ->
  settles_at tbl v f -> f = 0.
Proof.
  intros Hs0 Hlt (Hf & Hleft & _).
  destruct Hleft as [->|(s & Hs & _ & Habove)]; [reflexivity|exfalso].
  unfold gtb in Habove.
  assert (Hvs : ltb v s = true)
    by (apply (read_lt_le 0 f s0 s); auto; lia).
  rewrite (ltb_asym _ _ Hvs) in Habove. discriminate.
Qed.

Lemma settles_above_all (v : double) (f : Z) (sl : double) :
  read tbl (Z.of_nat (length tbl) - 1) = Ok sl -> ltb sl v = true ->
  settles_at tbl v f -> f = Z.of_nat (length tbl) - 1.
Proof.
  intros Hsl Hlt (Hf & _ & Hright).
  destruct Hright as [->|(s & Hs & _ & Hbelow)]; [reflexivity|exfalso].
  unfold gtb in Hbelow.
  pose proof (read_inv _ _ _ Hs) as [Hf1 _].
  assert (Hsv : ltb s v = true)
    by (apply (read_le_lt (f + 1) (Z.of_nat (length tbl) - 1) s sl); auto; lia).
  congruence.
Qed.

(** ** The verdicts of the lookup *)

Lemma lookup_Correct_inv (v : double) :
  lookup tbl v = Ok Correct -> matches tbl v.
Proof.
  intros Hl. destruct (lookup_spec tbl v curated_size) as (r & Hr & Hout).
  rewrite Hl in Hr. injection Hr as <-.
  inversion Hout as [k s Hs Htol|f s _ Hs Heq| |].
  - exists s. split; [eapply read_In; eassumption|exact Htol].
  - pose proof (curated_entry f s Hs) as Hok.
    apply eqb_eq in Heq; [|apply entry_ok_not_zero, Hok]. subst v.
    exists s. split; [eapply read_In; eassumption|].
    apply within_tolerance_refl, entry_ok_finite, Hok.
Qed.

Lemma lookup_Unknown (v : double) :
  ~ matches tbl v -> exists low high, lookup tbl v = Ok (Unknown low high).
Proof.
  intros Hno. destruct (lookup_spec tbl v curated_size) as ([|low high] & Hr & _).
  - elim Hno. apply lookup_Correct_inv, Hr.
  - eauto.
Qed.

Lemma not_matches_read (v : double) :
  (forall k s, read tbl k = Ok s -> within_tolerance v s = false) ->
  ~ matches tbl v.
Proof.
  intros Hno (s & Hin & Htol). apply In_nth_error in Hin as [n Hn].
  rewrite (Hno _ _ (read_nth tbl n s Hn)) in Htol. discriminate.
Qed.

Lemma lookup_between (v : double) (i : Z) (lo hi : double) :
  read tbl i = Ok lo -> read tbl (i + 1) = Ok hi ->
  ltb lo v = true -> ltb v hi = true ->
  ~ matches tbl v ->
  lookup tbl v = Ok (Unknown lo hi).
Proof.
  intros Hlo Hhi Hlt Hgt Hno.
  destruct (lookup_spec tbl v curated_size) as (r & Hr & Hout).
  rewrite Hr. f_equal.
  pose proof (read_inv _ _ _ Hhi) as [Hi1 _].
  inversion Hout as [k s Hs Htol|f s Hset Hs Heq
                     |f s low Hset Hs Heq Hvs Hlow|f s high Hset Hs Heq Hvs Hhigh].
  - elim Hno. exists s. split; [eapply read_In; eassumption|exact Htol].
  - rewrite (settles_between v i f lo hi Hlo Hhi Hlt Hgt Hset) in Hs.
    assert (s = lo) by congruence. subst s.
    rewrite (ltb_not_eqb_sym _ _ Hlt) in Heq. discriminate.
  - rewrite (settles_between v i f lo hi Hlo Hhi Hlt Hgt Hset) in Hs.
    assert (s = lo) by congruence. subst s.
    rewrite (ltb_asym _ _ Hlt) in Hvs. discriminate.
  - pose proof (settles_between v i f lo hi Hlo Hhi Hlt Hgt Hset) as ->.
    assert (s = lo) by congruence. subst s.
    destruct (Z.ltb_spec i (Z.of_nat (length tbl) - 1)); [|lia].
    congruence.
Qed.

Lemma lookup_below_all (v : double) (s0 : double) :
  read tbl 0 = Ok s0 -> ltb v s0 = true ->
  ~ matches tbl v ->
  lookup tbl v = Ok (Unknown (of_int 0) s0).
Proof.
  intros Hs0 Hlt Hno.
  destruct (lookup_spec tbl v curated_size) as (r & Hr & Hout).
  rewrite Hr. f_equal.
  inversion Hout as [k s Hs Htol|f s Hset Hs Heq
                     |f s low Hset Hs Heq Hvs Hlow|f s high Hset Hs Heq Hvs Hhigh].
  - elim Hno. exists s. split; [eapply read_In; eassumption|exact Htol].
  - rewrite (settles_below_all v f s0 Hs0 Hlt Hset) in Hs.
    assert (s = s0) by congruence. subst s.
    rewrite (ltb_not_eqb _ _ Hlt) in Heq. discriminate.
  - pose proof (settles_below_all v f s0 Hs0 Hlt Hset) as ->.
    assert (s = s0) by congruence. subst s.
    cbn [Z.eqb] in Hlow. congruence.
  - rewrite (settles_below_all v f s0 Hs0 Hlt Hset) in Hs.
    assert (s = s0) by congruence. subst s. congruence.
Qed.

Lemma lookup_above_all (v : double) (sl : double) :
  read tbl (Z.of_nat (length tbl) - 1) = Ok sl -> ltb sl v = true ->
  ~ matches tbl v ->
  lookup tbl v = Ok (Unknown sl (of_int 0)).
Proof.
  intros Hsl Hlt Hno.
  destruct (lookup_spec tbl v curated_size) as (r & Hr & Hout).
  rewrite Hr. f_equal.
  inversion Hout as [k s Hs Htol|f s Hset Hs Heq
                     |f s low Hset Hs Heq Hvs Hlow|f s high Hset Hs Heq Hvs Hhigh].
  - elim Hno. exists s. split; [eapply read_In; eassumption|exact Htol].
  - rewrite (settles_above_all v f sl Hsl Hlt Hset) in Hs.
    assert (s = sl) by congruence. subst s.
    rewrite (ltb_not_eqb_sym _ _ Hlt) in Heq. discriminate.
  - rewrite (settles_above_all v f sl Hsl Hlt Hset) in Hs.
    assert (s = sl) by congruence. subst s.
    rewrite (ltb_asym _ _ Hlt) in Hvs. discriminate.
  - pose proof (settles_above_all v f sl Hsl Hlt Hset) as ->.
    assert (s = sl) by congruence. subst s.
    rewrite Z.ltb_irrefl in Hhigh. congruence.
Qed.

(** ** Which entries can match *)

Lemma no_match_between (v : double) (i : Z) (lo hi : double) :
  is_double v ->
  read tbl i = Ok lo -> read tbl (i + 1) = Ok hi ->
  ltb lo v = true -> ltb v hi = true ->
  within_tolerance v lo = false -> within_tolerance v hi = false ->
  ~ matches tbl v.
Proof.
  intros Hv Hlo Hhi Hlt Hgt Hnlo Hnhi. apply not_matches_read. intros k s Hs.
  assert (Hpos : ltb (of_int 0) v = true).
  { apply (ltb_trans _ lo); [|exact Hlt].
    apply entry_ok_positive, (curated_entry i), Hlo. }
  destruct (Z.lt_trichotomy k i) as [Hk|[->|Hk]].
  - exact (no_match_left v Hv i lo Hlo Hlt k s Hk Hs).
  - congruence.
  - destruct (Z.eq_dec k (i + 1)) as [->|Hne]; [congruence|].
    apply (no_match_right v Hv (i + 1) hi Hpos Hhi Hgt k s); [lia|exact Hs].
Qed.

Lemma no_match_below_all (v : double) (s0 : double) :
  is_double v -> ltb (of_int 0) v = true ->
  read tbl 0 = Ok s0 -> ltb v s0 = true ->
  within_tolerance v s0 = false ->
  ~ matches tbl v.
Proof.
  intros Hv Hpos Hs0 Hlt Hn0. apply not_matches_read. intros k s Hs.
  pose proof (read_inv _ _ _ Hs) as [Hk _].
  destruct (Z.eq_dec k 0) as [->|Hne]; [congruence|].
  apply (no_match_right v Hv 0 s0 Hpos Hs0 Hlt k s); [lia|exact Hs].
Qed.

Lemma no_match_above_all (v : double) (sl : double) :
  is_double v ->
  read tbl (Z.of_nat (length tbl) - 1) = Ok sl -> ltb sl v = true ->
  within_tolerance v sl = false ->
  ~ matches tbl v.
Proof.
  intros Hv Hsl Hlt Hnl. apply not_matches_read. intros k s Hs.
  pose proof (read_inv _ _ _ Hs) as [Hk _].
  destruct (Z.eq_dec k (Z.of_nat (length tbl) - 1)) as [->|Hne]; [congruence|].
  apply (no_match_left v Hv _ sl Hsl Hlt k s); [lia|exact Hs].
Qed.

(** ** The cache in reachable states *)

(** The cache holds its initial -1 or a value that matched an entry. *)
Lemma reachable_cache (st : xtal_state) :
  reachable tbl st ->
  last_correct_value st = of_int (-1) \/ matches tbl (last_correct_value st).
Proof.
  induction 1 as [|st v b st' _ IH Hcall].
  - left. reflexivity.
  - apply validate_on_inv in Hcall.
    destruct Hcall as [Hc|Hc Hl|low high Hc Hl]; cbn; auto.
    right. apply lookup_Correct_inv, Hl.
Qed.

Lemma reachable_cache_not_zero (st : xtal_state) :
  reachable tbl st -> is_zero (last_correct_value st) = false.
Proof.
  intros Hr. destruct (reachable_cache st Hr) as [->|(s & _ & Htol)].
  - reflexivity.
  - eapply within_tolerance_not_zero, Htol.
Qed.

(** A positive candidate that matches no entry is not the cached value. *)
Lemma reachable_cache_miss (st : xtal_state) (v : double) :
  reachable tbl st -> ltb (of_int 0) v = true -> ~ matches tbl v ->
  eqb v (last_correct_value st) = false.
Proof.
  intros Hr Hpos Hno.
  destruct (eqb v (last_correct_value st)) eqn:Heq; [exfalso|reflexivity].
  pose proof (eqb_eq _ _ Heq (reachable_cache_not_zero st Hr)) as E.
  destruct (reachable_cache st Hr) as [Hinit|Hm].
  - rewrite Hinit in E. subst v. discriminate.
  - apply Hno. rewrite E. exact Hm.
Qed.

End Curated.

(** ** Every entry of a curated table is found *)

Lemma ltb_total (a b : double) :
  is_finite a = true -> is_finite b = true ->
  eqb a b = false -> ltb a b = false -> ltb b a = true.
Proof.
  destruct a as [| | |sa ma ea], b as [| | |sb mb eb]; try discriminate.
  intros _ _. by_cases_on_compare.
Qed.

Lemma lookup_entry (tbl : list double) (i : Z) (v : double) :
  curated tbl = true -> read tbl i = Ok v -> lookup tbl v = Ok Correct.
Proof.
  intros Hc Hv.
  destruct (lookup_spec tbl v (curated_size tbl Hc)) as (r & Hr & Hout).
  rewrite Hr. f_equal.
  pose proof (read_inv _ _ _ Hv) as [Hi _].
  pose proof (curated_entry tbl Hc i v Hv) as Hok.
  inversion Hout as [k s Hs Htol|f s Hset Hs Heq
                     |f s low Hset Hs Heq Hvs Hlow|f s high Hset Hs Heq Hvs Hhigh];
    try reflexivity; exfalso.
  - (* settled on an entry above the candidate *)
    destruct Hset as (Hf & Hleft & _).
    destruct Hleft as [->|(s' & Hs' & _ & Habove)].
    + destruct (Z.eq_dec i 0) as [->|Hne].
      * assert (s = v) by congruence. subst s.
        rewrite ltb_irrefl in Hvs. discriminate.
      * assert (Hsv : ltb s v = true) by (apply (read_lt tbl Hc 0 i); auto; lia).
        rewrite (ltb_asym _ _ Hsv) in Hvs. discriminate.
    + unfold gtb in Habove. assert (s' = s) by congruence. subst s'.
      rewrite (ltb_asym _ _ Habove) in Hvs. discriminate.
  - (* settled on an entry below the candidate *)
    assert (Hsv : ltb s v = true).
    { apply ltb_total; auto.
      - apply entry_ok_finite, Hok.
      - apply entry_ok_finite, (curated_entry tbl Hc f), Hs. }
    assert (Hfi : f < i).
    { destruct (Z.lt_trichotomy f i) as [|[->|Hgt]]; [assumption| |].
      - assert (s = v) by congruence. subst s.
        rewrite ltb_irrefl in Hsv. discriminate.
      - assert (Hvs' : ltb v s = true) by (apply (read_lt tbl Hc i f); auto).
        congruence. }
    destruct Hset as (Hf & _ & Hright).
    destruct Hright as [->|(s' & Hs' & Htol & Hbelow)]; [lia|].
    unfold gtb in Hbelow.
    destruct (Z.eq_dec (f + 1) i) as [E|Hne].
    + rewrite E in Hs'. assert (s' = v) by congruence. subst s'.
      rewrite within_tolerance_refl in Htol; [discriminate|].
      apply entry_ok_finite, Hok.
    + assert (Hs'v : ltb s' v = true)
        by (apply (read_lt tbl Hc (f + 1) i); auto; lia).
      congruence.
Qed.

(** * The reference table is curated *)

Lemma known_xtals_curated : curated known_xtals = true.
Proof. vm_compute. reflexivity. Qed.

(** * Mismatches on a curated table *)

(** In-range mismatch: a double strictly between two consecutive entries,
    within tolerance of neither, is rejected with these two entries as
    bracket; they are the largest entry below and the smallest above. *)
Lemma validate_on_between (tbl : list double) (st : xtal_state) (v : double)
    (i : nat) (lo hi : double) :
  curated tbl = true ->
  reachable tbl st ->
  is_double v ->
  nth_error tbl i = Some lo -> nth_error tbl (S i) = Some hi ->
  ltb lo v = true -> ltb v hi = true ->
  within_tolerance v lo = false -> within_tolerance v hi = false ->
  validate_on tbl st v = Ok (false, set_xtal_error st lo hi)
  /\ (forall s, In s tbl -> ltb s v = true -> s = lo \/ ltb s lo = true)
  /\ (forall s, In s tbl -> ltb v s = true -> s = hi \/ ltb hi s = true).
Proof.
  intros Hc Hreach Hv Hlo Hhi Hlt Hgt Hnlo Hnhi.
  apply read_nth in Hlo, Hhi.
  replace (Z.of_nat (S i)) with (Z.of_nat i + 1) in Hhi by lia.
  assert (Hno : ~ matches tbl v)
    by (apply (no_match_between tbl Hc v (Z.of_nat i) lo hi); assumption).
  assert (Hpos : ltb (of_int 0) v = true).
  { apply (ltb_trans _ lo); [|exact Hlt].
    apply entry_ok_positive, (curated_entry tbl Hc (Z.of_nat i)), Hlo. }
  split; [|split].
  - apply validate_on_unknown.
    + apply (reachable_cache_miss tbl Hc); assumption.
    + apply (lookup_between tbl Hc v (Z.of_nat i)); assumption.
  - intros s Hin Hsv. apply In_nth_error in Hin as [k Hk]. apply read_nth in Hk.
    destruct (Z.lt_trichotomy (Z.of_nat k) (Z.of_nat i)) as [Hki|[Hki|Hki]].
    + right. apply (read_lt tbl Hc (Z.of_nat k) (Z.of_nat i)); assumption.
    + left. rewrite Hki in Hk. congruence.
    + exfalso.
      assert (Hvs : ltb v s = true)
        by (apply (read_lt_le tbl Hc (Z.of_nat i + 1) (Z.of_nat k) hi s); auto; lia).
      rewrite (ltb_asym _ _ Hvs) in Hsv. discriminate.
  - intros s Hin Hvs. apply In_nth_error in Hin as [k Hk]. apply read_nth in Hk.
    destruct (Z.lt_trichotomy (Z.of_nat k) (Z.of_nat i + 1)) as [Hki|[Hki|Hki]].
    + exfalso.
      assert (Hsv : ltb s v = true)
        by (apply (read_le_lt tbl Hc (Z.of_nat k) (Z.of_nat i) s lo); auto; lia).
      rewrite (ltb_asym _ _ Hsv) in Hvs. discriminate.
    + left. rewrite Hki in Hk. congruence.
    + right. apply (read_lt tbl Hc (Z.of_nat i + 1) (Z.of_nat k)); assumption.
Qed.

(** Out-of-range mismatch: below the smallest entry the low bracket is the
    sentinel 0, above the largest entry the high bracket is; [XTAL::fail]
    then names one frequency. *)
Lemma validate_on_out_of_range (tbl : list double) (st : xtal_state) (v : double) :
  curated tbl = true ->
  reachable tbl st ->
  is_double v ->
  ltb (of_int 0) v = true ->
  (forall smallest,
      nth_error tbl 0 = Some smallest ->
      ltb v smallest = true -> within_tolerance v smallest = false ->
      validate_on tbl st v = Ok (false, set_xtal_error st (of_int 0) smallest)
      /\ suggestions (set_xtal_error st (of_int 0) smallest) = [smallest])
  /\ (forall largest,
      nth_error tbl (length tbl - 1) = Some largest ->
      ltb largest v = true -> within_tolerance v largest = false ->
      validate_on tbl st v = Ok (false, set_xtal_error st largest (of_int 0))
      /\ suggestions (set_xtal_error st largest (of_int 0)) = [largest]).
Proof.
  intros Hc Hreach Hv Hpos.
  pose proof (curated_size tbl Hc) as Hsize.
  split.
  - intros s0 Hs0 Hlt Hn0. apply read_nth in Hs0. change (Z.of_nat 0) with 0 in Hs0.
    assert (Hno : ~ matches tbl v)
      by (apply (no_match_below_all tbl Hc v s0); assumption).
    split.
    + apply validate_on_unknown.
      * apply (reachable_cache_miss tbl Hc); assumption.
      * apply (lookup_below_all tbl Hc); assumption.
    + reflexivity.
  - intros sl Hsl Hlt Hnl. apply read_nth in Hsl.
    replace (Z.of_nat (length tbl - 1)) with (Z.of_nat (length tbl) - 1) in Hsl by lia.
    assert (Hno : ~ matches tbl v)
      by (apply (no_match_above_all tbl Hc v sl); assumption).
    split.
    + apply validate_on_unknown.
      * apply (reachable_cache_miss tbl Hc); assumption.
      * apply (lookup_above_all tbl Hc); assumption.
    + pose proof (curated_entry tbl Hc _ sl Hsl) as Hok.
      destruct sl as [| | |[] m e]; try discriminate. reflexivity.
Qed.


(** * The claims *)

(** C1.  Every entry of the reference table validates: for every frequency
    [v] of [known_xtals], [validate] returns true, whatever the validation
    state holds. *)
Theorem known_xtals_validate (st : xtal_state) (v : double) :
  In v known_xtals -> exists st', validate st v = Ok (true, st').
Proof.
  intros Hin. unfold validate.
  destruct (eqb v (last_correct_value st)) eqn:Hc.
  - exists st. apply validate_on_cached, Hc.
  - exists (set_last_correct_value st v). apply validate_on_correct; [exact Hc|].
    apply In_nth_error in Hin as [n Hn].
    apply (lookup_entry known_xtals (Z.of_nat n)).
    + exact known_xtals_curated.
    + apply read_nth, Hn.
Qed.

Lemma known_xtals_validate_witness :
  exists st', validate initial_state (of_int 3579545) = Ok (true, st').
Proof.
  apply (known_xtals_validate initial_state (of_int 3579545)).
  vm_compute. tauto.
Defined.

(** C2.  A candidate that is within tolerance of no entry of the reference
    table, and that the cache does not hold, is rejected: [validate]
    returns false.  (The tolerance test is the one of the code, computed
    in double arithmetic; the candidate need not even be positive.) *)
Theorem validate_rejects_unmatched (st : xtal_state) (v : double) :
  (forall s, In s known_xtals -> within_tolerance v s = false) ->
  eqb v (last_correct_value st) = false ->
  exists low high, validate st v = Ok (false, set_xtal_error st low high).
Proof.
  intros Hno Hc.
  destruct (lookup_Unknown known_xtals known_xtals_curated v) as (low & high & Hl).
  - intros (s & Hin & Htol). rewrite (Hno s Hin) in Htol. discriminate.
  - exists low, high. apply validate_on_unknown; assumption.
Qed.

Lemma validate_rejects_unmatched_witness :
  exists low high,
    validate initial_state (of_int 4000001)
    = Ok (false, set_xtal_error initial_state low high).
Proof.
  apply (validate_rejects_unmatched initial_state (of_int 4000001)).
  - intros s Hin.
    assert (H : forallb (fun s => negb (within_tolerance (of_int 4000001) s))
                  known_xtals = true) by (vm_compute; reflexivity).
    rewrite forallb_forall in H. apply negb_true_iff, H, Hin.
  - vm_compute. reflexivity.
Defined.

(** C3.  In-range mismatch.  A double [v] strictly between two consecutive
    entries [lo] and [hi] of the reference table, within tolerance of
    neither, is rejected in every reachable state, and the call leaves
    [xtal_error_low = lo] and [xtal_error_high = hi]; [lo] is the largest
    entry below [v] and [hi] the smallest entry above it.  On the table
    {100, 200, 300}, [validate(250)] is false with brackets 200 and 300. *)
Theorem validate_between :
  (forall (st : xtal_state) (v : double) (i : nat) (lo hi : double),
      reachable known_xtals st ->
      is_double v ->
      nth_error known_xtals i = Some lo -> nth_error known_xtals (S i) = Some hi ->
      ltb lo v = true -> ltb v hi = true ->
      within_tolerance v lo = false -> within_tolerance v hi = false ->
      validate st v = Ok (false, set_xtal_error st lo hi)
      /\ (forall s, In s known_xtals -> ltb s v = true -> s = lo \/ ltb s lo = true)
      /\ (forall s, In s known_xtals -> ltb v s = true -> s = hi \/ ltb hi s = true))
  /\ validate_on (map of_int [100; 200; 300]) initial_state (of_int 250)
     = Ok (false, set_xtal_error initial_state (of_int 200) (of_int 300)).
Proof.
  split.
  - intros st v i lo hi. apply validate_on_between. exact known_xtals_curated.
  - vm_compute. reflexivity.
Qed.

Lemma validate_between_witness :
  validate initial_state (of_int 35000)
  = Ok (false, set_xtal_error initial_state (of_int 32768) (of_int 38400)).
Proof.
  apply (proj1 validate_between initial_state (of_int 35000) 0%nat
           (of_int 32768) (of_int 38400));
    try (vm_compute; reflexivity).
  apply reachable_initial.
Defined.

(** C4.  Out-of-range mismatch.  In a reachable state, a positive double
    below the smallest entry of the reference table and out of its
    tolerance is rejected with [xtal_error_low] the "none" sentinel 0 and
    [xtal_error_high] the smallest entry; one above the largest entry and
    out of its tolerance is rejected with [xtal_error_high] the sentinel
    and [xtal_error_low] the largest entry.  In both cases [XTAL::fail]
    has exactly one frequency to suggest. *)
Theorem validate_out_of_range (st : xtal_state) (v : double) :
  reachable known_xtals st ->
  is_double v ->
  ltb (of_int 0) v = true ->
  (forall smallest,
      nth_error known_xtals 0 = Some smallest ->
      ltb v smallest = true -> within_tolerance v smallest = false ->
      validate st v = Ok (false, set_xtal_error st (of_int 0) smallest)
      /\ suggestions (set_xtal_error st (of_int 0) smallest) = [smallest])
  /\ (forall largest,
      nth_error known_xtals (length known_xtals - 1) = Some largest ->
      ltb largest v = true -> within_tolerance v largest = false ->
      validate st v = Ok (false, set_xtal_error st largest (of_int 0))
      /\ suggestions (set_xtal_error st largest (of_int 0)) = [largest]).
Proof. apply validate_on_out_of_range. exact known_xtals_curated. Qed.

Lemma validate_out_of_range_witness :
  validate initial_state (of_int 1000)
  = Ok (false, set_xtal_error initial_state (of_int 0) (of_int 32768))
  /\ suggestions (set_xtal_error initial_state (of_int 0) (of_int 32768))
     = [of_int 32768].
Proof.
  apply (validate_out_of_range initial_state (of_int 1000));
    try (vm_compute; reflexivity).
  apply reachable_initial.
Defined.

(** C5.  [validate] is total: for every state and every double it returns
    a result.  The loop ends within the 32 iterations the width of
    [step] allows, and no read of [known_xtals] is out of bounds: either
    would be a [Fault]. *)
Theorem validate_total (st : xtal_state) (v : double) :
  exists b st', validate st v = Ok (b, st').
Proof.
  apply validate_on_total. exact (curated_size _ known_xtals_curated).
Qed.

(** C6.  The reference table is strictly ascending, has no duplicate and
    holds positive entries only. *)
Theorem known_xtals_strictly_ascending :
  (forall i a b,
      nth_error known_xtals i = Some a -> nth_error known_xtals (S i) = Some b ->
      ltb a b = true)
  /\ NoDup known_xtals
  /\ Forall (fun s => ltb (of_int 0) s = true) known_xtals.
Proof.
  pose proof known_xtals_curated as Hc.
  destruct (curated_inv _ Hc) as (_ & Hentry & Hasc & _).
  split; [|split].
  - intros i a b. apply (adjacent_nth ltb known_xtals Hasc).
  - apply NoDup_nth_error. intros i j Hi Hij.
    destruct (nth_error known_xtals i) as [a|] eqn:Ha;
      [|apply nth_error_None in Ha; lia].
    symmetry in Hij. apply read_nth in Ha, Hij.
    destruct (Nat.lt_trichotomy i j) as [Hlt|[->|Hlt]]; [|reflexivity|].
    + pose proof (read_lt _ Hc (Z.of_nat i) (Z.of_nat j) a a Ha Hij ltac:(lia)) as H.
      rewrite ltb_irrefl in H. discriminate.
    + pose proof (read_lt _ Hc (Z.of_nat j) (Z.of_nat i) a a Hij Ha ltac:(lia)) as H.
      rewrite ltb_irrefl in H. discriminate.
  - apply Forall_forall. intros s Hin. apply entry_ok_positive, Hentry, Hin.
Qed.

(** C7.  A call that returns false writes both error fields: each gets a
    value the lookup computes from the candidate alone, so the state after
    the call is the same whatever the two fields held before it. *)
Theorem failed_call_overwrites_brackets (st : xtal_state) (v : double)
    (st' : xtal_state) (stale_low stale_high : double) :
  validate st v = Ok (false, st') ->
  (exists low high,
      lookup known_xtals v = Ok (Unknown low high)
      /\ xtal_error_low st' = low /\ xtal_error_high st' = high)
  /\ validate (set_xtal_error st stale_low stale_high) v = Ok (false, st').
Proof.
  intros Hcall. unfold validate in *. apply validate_on_inv in Hcall.
  inversion Hcall as [| |low high Hc Hl]; subst. split.
  - exists low, high. auto.
  - unfold validate_on. cbn [set_xtal_error last_correct_value].
    rewrite Hc, Hl. reflexivity.
Qed.

Lemma failed_call_overwrites_brackets_witness :
  (exists low high,
      lookup known_xtals (of_int 4000001) = Ok (Unknown low high)
      /\ xtal_error_low
           (set_xtal_error initial_state (of_int 4000000) (of_int 4028000)) = low
      /\ xtal_error_high
           (set_xtal_error initial_state (of_int 4000000) (of_int 4028000)) = high)
  /\ validate (set_xtal_error initial_state (of_int 100) (of_int 200)) (of_int 4000001)
     = Ok (false, set_xtal_error initial_state (of_int 4000000) (of_int 4028000)).
Proof.
  apply (failed_call_overwrites_brackets initial_state (of_int 4000001)).
  vm_compute. reflexivity.
Defined.

(** C8.  In a reachable state, a call [validate(v)] that returns true
    leaves [last_correct_value] equal to [v]; the cache test of the next
    call on [v] succeeds, so that call returns true again with the state
    unchanged, and it does so whatever the table is, even the empty one
    on which a search faults ([lookup_empty_faults]): it does not search. *)
Theorem validate_true_caches (st : xtal_state) (v : double) (st' : xtal_state) :
  reachable known_xtals st ->
  validate st v = Ok (true, st') ->
  last_correct_value st' = v
  /\ eqb v (last_correct_value st') = true
  /\ (forall tbl, validate_on tbl st' v = Ok (true, st')).
Proof.
  intros Hreach Hcall. unfold validate in Hcall. apply validate_on_inv in Hcall.
  assert (H : last_correct_value st' = v /\ eqb v (last_correct_value st') = true).
  { inversion Hcall as [Hc|Hc Hl|]; subst.
    - split; [|exact Hc]. symmetry. apply eqb_eq; [exact Hc|].
      apply (reachable_cache_not_zero known_xtals known_xtals_curated), Hreach.
    - split; [reflexivity|]. cbn [set_last_correct_value last_correct_value].
      apply eqb_refl.
      destruct (lookup_Correct_inv known_xtals known_xtals_curated v Hl)
        as (s & _ & Htol).
      eapply within_tolerance_not_nan, Htol. }
  destruct H as [H1 H2]. split; [exact H1|]. split; [exact H2|].
  intros tbl. apply validate_on_cached, H2.
Qed.

Lemma validate_true_caches_witness :
  last_correct_value (set_last_correct_value initial_state (of_int 3579545))
  = of_int 3579545
  /\ eqb (of_int 3579545)
       (last_correct_value (set_last_correct_value initial_state (of_int 3579545)))
     = true
  /\ (forall tbl,
        validate_on tbl (set_last_correct_value initial_state (of_int 3579545))
          (of_int 3579545)
        = Ok (true, set_last_correct_value initial_state (of_int 3579545))).
Proof.
  apply (validate_true_caches initial_state (of_int 3579545)).
  - apply reachable_initial.
  - vm_compute. reflexivity.
Defined.

(** C9.  In the initial state the cache holds -1, and [validate(-1)]
    returns true by the cache test alone, whatever the table is, although
    -1 is no entry of the reference table and is not positive. *)
Theorem initial_cache_accepts_minus_one :
  last_correct_value initial_state = of_int (-1)
  /\ (forall tbl,
        validate_on tbl initial_state (of_int (-1)) = Ok (true, initial_state))
  /\ ~ In (of_int (-1)) known_xtals
  /\ ltb (of_int 0) (of_int (-1)) = false.
Proof.
  split; [reflexivity|]. split; [|split].
  - intros tbl. apply validate_on_cached. reflexivity.
  - intros Hin.
    destruct (curated_inv _ known_xtals_curated) as (_ & Hentry & _).
    specialize (Hentry _ Hin). discriminate.
  - reflexivity.
Qed.

(** C10.  A call that returns true leaves [xtal_error_low] and
    [xtal_error_high] as they were, and a call that returns false leaves
    [last_correct_value] as it was. *)
Theorem validate_frame (st : xtal_state) (v : double) (b : bool) (st' : xtal_state) :
  validate st v = Ok (b, st') ->
  (b = true ->
     xtal_error_low st' = xtal_error_low st
     /\ xtal_error_high st' = xtal_error_high st)
  /\ (b = false -> last_correct_value st' = last_correct_value st).
Proof.
  intros Hcall. unfold validate in Hcall. apply validate_on_inv in Hcall.
  inversion Hcall; subst; split; intros; try discriminate; auto.
Qed.

Lemma validate_frame_witness :
  (true = true ->
     xtal_error_low (set_last_correct_value initial_state (of_int 3579545))
     = xtal_error_low initial_state
     /\ xtal_error_high (set_last_correct_value initial_state (of_int 3579545))
        = xtal_error_high initial_state)
  /\ (true = false ->
      last_correct_value (set_last_correct_value initial_state (of_int 3579545))
      = last_correct_value initial_state).
Proof.
  apply (validate_frame initial_state (of_int 3579545)).
  vm_compute. reflexivity.
Defined.

(** * Further properties of the search *)

(** ** Slot 0 is never compared inside the loop *)

Lemma search_matched_slot (tbl : list double) (last_index : Z) (v : double)
    (j : nat) :
  forall (fuel : nat) (q : Z),
    0 <= q ->
    search fuel tbl last_index v
      (q * 2 ^ (Z.of_nat j + 1) + 2 ^ Z.of_nat j) (2 ^ Z.of_nat j) = Ok Matched ->
    exists k s, 1 <= k /\ read tbl k = Ok s /\ within_tolerance v s = true.
Proof.
  induction j as [|j IH]; intros fuel q Hq.
  - change (Z.of_nat 0) with 0. change (2 ^ (0 + 1)) with 2. change (2 ^ 0) with 1.
    replace (q * 2 + 1) with (2 * q + 1) by ring.
    destruct fuel as [|fuel]; [discriminate|].
    cbn [search]. change (1 =? 0) with false. cbv iota.
    rewrite shr_one, !search_done.
    destruct (2 * q + 1 >? last_index); [discriminate|].
    destruct (read tbl (2 * q + 1)) as [s|] eqn:Hs; [|discriminate].
    cbn [bind].
    destruct (within_tolerance v s) eqn:Htol.
    + intros _. exists (2 * q + 1), s. repeat split; auto. lia.
    + destruct (gtb v s); discriminate.
  - rewrite Nat2Z.inj_succ. unfold Z.succ.
    set (J := Z.of_nat j) in *.
    assert (HJ : 0 <= J) by (subst J; lia).
    replace (J + 1 + 1) with (J + 2) by lia.
    assert (Hpos : 0 < 2 ^ (J + 1)) by (apply Z.pow_pos_nonneg; lia).
    assert (Hpos2 : 0 <= q * 2 ^ (J + 2))
      by (apply Z.mul_nonneg_nonneg; [lia|apply Z.pow_nonneg; lia]).
    destruct fuel as [|fuel]; [cbn [search]; destruct (2 ^ (J + 1) =? 0); discriminate|].
    cbn [search].
    destruct (Z.eqb_spec (2 ^ (J + 1)) 0) as [E|_]; [lia|].
    rewrite shr_step, retract_step, advance_step by lia.
    destruct (q * 2 ^ (J + 2) + 2 ^ (J + 1) >? last_index).
    + apply (IH fuel (2 * q)). lia.
    + destruct (read tbl (q * 2 ^ (J + 2) + 2 ^ (J + 1))) as [s|] eqn:Hs;
        [|discriminate].
      cbn [bind].
      destruct (within_tolerance v s) eqn:Htol.
      * intros _. exists (q * 2 ^ (J + 2) + 2 ^ (J + 1)), s.
        repeat split; auto. lia.
      * destruct (gtb v s).
        -- apply (IH fuel (2 * q + 1)). lia.
        -- apply (IH fuel (2 * q)). lia.
Qed.

(** A verdict [Correct] is a tolerance match at a slot other than 0, or
    equality with the entry the loop settled on. *)
Lemma lookup_Correct_cases (tbl : list double) (v : double) :
  0 < Z.of_nat (length tbl) < 2 ^ U32.width ->
  lookup tbl v = Ok Correct ->
  (exists k s, 1 <= k /\ read tbl k = Ok s /\ within_tolerance v s = true)
  \/ (exists f s, read tbl f = Ok s /\ eqb v s = true).
Proof.
  intros Hsize. unfold lookup. rewrite (last_index_unsigned tbl Hsize).
  set (last_index := Z.of_nat (length tbl) - 1).
  destruct (search _ tbl last_index v _ _) as [[|f]|] eqn:Hsearch;
    cbn [bind]; [| |discriminate].
  - intros _. left.
    destruct (Z.eq_dec last_index 0) as [E0|Hne].
    + rewrite E0 in Hsearch. change (ppow2_of 0) with 0 in Hsearch.
      rewrite search_done in Hsearch. discriminate.
    + assert (Hrange : 0 < last_index < 2 ^ U32.width)
        by (unfold last_index in *; lia).
      rewrite (ppow2_of_log2 last_index Hrange) in Hsearch.
      pose proof (Z.log2_nonneg last_index) as Hk0.
      apply (search_matched_slot tbl last_index v (Z.to_nat (Z.log2 last_index))
               (Z.to_nat U32.width) 0); [lia|].
      rewrite Z2Nat.id by lia. rewrite Z.mul_0_l, Z.add_0_l. exact Hsearch.
  - destruct (read tbl f) as [s|] eqn:Hs; cbn [bind]; [|discriminate].
    destruct (eqb v s) eqn:Heq.
    + intros _. right. exists f, s. auto.
    + destruct (ltb v s).
      * destruct (if f =? 0 then Ok (of_int 0) else read tbl (U32.sub f 1));
          discriminate.
      * destruct (if f <? last_index then read tbl (U32.add f 1) else Ok (of_int 0));
          discriminate.
Qed.

(** ** A match needs a finite candidate *)

Lemma within_tolerance_finite (v s : double) :
  entry_ok s = true -> ltb (of_int 0) v = true ->
  within_tolerance v s = true -> is_finite v = true.
Proof.
  intros Hs Hpos Htol.
  destruct s as [| | |[] ms es]; try discriminate.
  destruct v as [|[]| |[] mv ev]; try discriminate. reflexivity.
Qed.

(** No slot the loop can settle on is compatible with a tolerance match at
    a slot other than 0. *)
Lemma settles_excludes_match (tbl : list double) (v : double) (k f : Z) (s : double) :
  curated tbl = true ->
  is_double v -> ltb (of_int 0) v = true ->
  1 <= k -> read tbl k = Ok s -> within_tolerance v s = true ->
  settles_at tbl v f -> False.
Proof.
  intros Hc Hv Hpos Hk Hs Htol (Hf & Hleft & Hright).
  pose proof (read_inv _ _ _ Hs) as [Hkr _].
  pose proof (curated_entry tbl Hc k s Hs) as Hsok.
  pose proof (within_tolerance_finite v s Hsok Hpos Htol) as Hfin.
  destruct (Z.lt_trichotomy f k) as [Hlt|[->|Hgt]].
  - destruct Hright as [->|(s' & Hs' & Htol' & Hbelow)]; [lia|].
    destruct (Z.eq_dec (f + 1) k) as [E|Hne].
    + rewrite E in Hs'. congruence.
    + destruct (read_in_bounds tbl (k - 1)) as [a Ha]; [lia|].
      assert (Hs1 : read tbl (k - 1 + 1) = Ok s) by (rewrite <- Hs; f_equal; lia).
      destruct (curated_step tbl Hc (k - 1) a s Ha Hs1) as [_ Hsep].
      pose proof (curated_entry tbl Hc _ s' Hs') as Hs'ok.
      unfold gtb in Hbelow.
      assert (Hvs' : ltb v s' = true).
      { destruct (eqb s' v) eqn:E.
        - apply eqb_eq in E.
          + subst s'. rewrite within_tolerance_refl in Htol' by assumption.
            discriminate.
          + destruct v; try discriminate; reflexivity.
        - apply ltb_total; auto. apply entry_ok_finite, Hs'ok. }
      assert (Hva : ltb v a = true)
        by (apply (read_lt_le tbl Hc (f + 1) (k - 1) s' a); auto; lia).
      rewrite (tolerance_below v a s Hv Hpos
                 (curated_entry tbl Hc _ a Ha) Hsok Hsep Hva) in Htol.
      discriminate.
  - destruct Hleft as [E|(s' & Hs' & Htol' & _)]; [lia|]. congruence.
  - destruct Hleft as [E|(s' & Hs' & _ & Habove)]; [lia|].
    unfold gtb in Habove.
    destruct (read_in_bounds tbl (k + 1)) as [b Hb]; [lia|].
    destruct (curated_step tbl Hc k s b Hs Hb) as [_ Hsep].
    assert (Hbv : ltb b v = true)
      by (apply (read_le_lt tbl Hc (k + 1) f b s'); auto; lia).
    rewrite (tolerance_above v s b Hv Hsok
               (curated_entry tbl Hc _ b Hb) Hsep Hbv) in Htol.
    discriminate.
Qed.

(** ** The cache *)

Lemma reachable_cache_lookup (tbl : list double) (st : xtal_state) :
  reachable tbl st ->
  last_correct_value st = of_int (-1)
  \/ lookup tbl (last_correct_value st) = Ok Correct.
Proof.
  induction 1 as [|st v b st' _ IH Hcall].
  - left. reflexivity.
  - apply validate_on_inv in Hcall.
    destruct Hcall as [Hc|Hc Hl|low high Hc Hl]; cbn; auto.
Qed.

(** * Further theorems *)

(** X1.  The bit fill and subtraction of [validate] compute the largest
    power of two not above [last_index], for every index an unsigned int
    can hold except 0. *)
Theorem ppow2_largest_power_of_two (last_index : Z) :
  0 < last_index < 2 ^ 32 ->
  ppow2_of last_index = 2 ^ Z.log2 last_index
  /\ 2 ^ Z.log2 last_index <= last_index < 2 * 2 ^ Z.log2 last_index.
Proof.
  intros H. split.
  - apply ppow2_of_log2. exact H.
  - pose proof (Z.log2_spec last_index ltac:(lia)) as Hs.
    rewrite Z.pow_succ_r in Hs by apply Z.log2_nonneg. exact Hs.
Qed.

Lemma ppow2_largest_power_of_two_witness :
  ppow2_of 315 = 2 ^ Z.log2 315
  /\ 2 ^ Z.log2 315 <= 315 < 2 * 2 ^ Z.log2 315.
Proof. apply (ppow2_largest_power_of_two 315). lia. Defined.

(** X2.  Whatever the table holds, as long as it has at least one and
    fewer than 2^32 entries, a call of [validate] ends, and every read of
    the table is inside it. *)
Theorem validate_on_never_faults (tbl : list double) (st : xtal_state) (v : double) :
  0 < Z.of_nat (length tbl) < 2 ^ 32 ->
  exists b st', validate_on tbl st v = Ok (b, st').
Proof. intros H. apply validate_on_total. exact H. Qed.

Lemma validate_on_never_faults_witness :
  exists b st', validate_on [of_int 455000] initial_state S754_nan = Ok (b, st').
Proof.
  apply (validate_on_never_faults [of_int 455000] initial_state S754_nan).
  cbn. lia.
Defined.

(** X3.  The power-of-two search finds every entry of every curated
    table, whatever its size: [validate] returns true on each entry. *)
Theorem curated_entries_validate (tbl : list double) (st : xtal_state) (v : double) :
  curated tbl = true -> In v tbl ->
  exists st', validate_on tbl st v = Ok (true, st').
Proof.
  intros Hc Hin.
  destruct (eqb v (last_correct_value st)) eqn:Hcache.
  - exists st. apply validate_on_cached, Hcache.
  - exists (set_last_correct_value st v). apply validate_on_correct; [exact Hcache|].
    apply In_nth_error in Hin as [n Hn].
    apply (lookup_entry tbl (Z.of_nat n) v Hc). apply read_nth, Hn.
Qed.

Lemma curated_entries_validate_witness :
  exists st',
    validate_on (map of_int [100; 200; 300]) initial_state (of_int 200)
    = Ok (true, st').
Proof.
  apply (curated_entries_validate (map of_int [100; 200; 300]) initial_state
           (of_int 200)).
  - vm_compute. reflexivity.
  - vm_compute. tauto.
Defined.

(** X4.  A positive double within tolerance of an entry of the reference
    table other than the first validates, in every state. *)
Theorem tolerance_match_validates (st : xtal_state) (v : double) (j : nat) (s : double) :
  is_double v -> ltb (of_int 0) v = true ->
  nth_error known_xtals (S j) = Some s ->
  within_tolerance v s = true ->
  exists st', validate st v = Ok (true, st').
Proof.
  intros Hv Hpos Hs Htol. unfold validate.
  pose proof known_xtals_curated as Hc.
  apply read_nth in Hs.
  destruct (eqb v (last_correct_value st)) eqn:Hcache.
  - exists st. apply validate_on_cached, Hcache.
  - exists (set_last_correct_value st v). apply validate_on_correct; [exact Hcache|].
    destruct (lookup_spec known_xtals v (curated_size _ Hc)) as (r & Hr & Hout).
    destruct Hout as [k' s' _ _|f s' _ _ _|f s' low Hset _ _ _ _|f s' high Hset _ _ _ _];
      try exact Hr; exfalso;
      apply (settles_excludes_match known_xtals v (Z.of_nat (S j)) f s Hc Hv Hpos);
      auto; lia.
Qed.

Lemma tolerance_match_validates_witness :
  exists st',
    validate initial_state (S754_finite false 5277655813324801 (-37))
    = Ok (true, st').
Proof.
  apply (tolerance_match_validates initial_state
           (S754_finite false 5277655813324801 (-37)) 0 (of_int 38400));
    vm_compute; reflexivity.
Defined.

(** X5.  The first entry is matched by equality only.  The loop never
    compares slot 0, and the re-check after it uses [==]: a positive
    double that is not equal to the first entry, lies below the second
    and out of its tolerance, and is not cached, is rejected, however
    close to the first entry it is.  The brackets are (0, first) when it
    is below the first entry and (first, second) otherwise. *)
Theorem first_entry_needs_exact_match (st : xtal_state) (v first second : double) :
  nth_error known_xtals 0 = Some first ->
  nth_error known_xtals 1 = Some second ->
  is_double v -> ltb (of_int 0) v = true ->
  eqb v (last_correct_value st) = false ->
  eqb v first = false ->
  ltb v second = true -> within_tolerance v second = false ->
  validate st v
  = Ok (false, if ltb v first then set_xtal_error st (of_int 0) first
               else set_xtal_error st first second).
Proof.
  intros H0 H1 Hv Hpos Hcache Hne Hlt Htol. unfold validate.
  pose proof known_xtals_curated as Hc.
  pose proof (curated_size _ Hc) as Hsize.
  apply read_nth in H0, H1.
  change (Z.of_nat 0) with 0 in H0. change (Z.of_nat 1) with 1 in H1.
  pose proof (read_inv _ _ _ H1) as [Hlen _].
  assert (Hnot : lookup known_xtals v <> Ok Correct).
  { intros Hl.
    destruct (lookup_Correct_cases known_xtals v Hsize Hl)
      as [(k & s & Hk & Hs & Hm)|(f & s & Hs & Heq)].
    - destruct (Z.eq_dec k 1) as [->|Hk1]; [congruence|].
      rewrite (no_match_right known_xtals Hc v Hv 1 second Hpos H1 Hlt k s) in Hm;
        [discriminate|lia|exact Hs].
    - pose proof (read_inv _ _ _ Hs) as [Hf _].
      destruct (Z.eq_dec f 0) as [->|Hf0]; [congruence|].
      assert (Hvs : ltb v s = true)
        by (apply (read_lt_le known_xtals Hc 1 f second s); auto; lia).
      rewrite (ltb_not_eqb _ _ Hvs) in Heq. discriminate. }
  assert (Hzero : forall f, settles_at known_xtals v f -> f = 0).
  { intros f (Hf & Hleft & _).
    destruct Hleft as [E|(s' & Hs' & _ & Habove)]; [exact E|].
    unfold gtb in Habove.
    destruct (Z.eq_dec f 0) as [E|Hf0]; [exact E|exfalso].
    assert (Hvs : ltb v s' = true)
      by (apply (read_lt_le known_xtals Hc 1 f second s'); auto; lia).
    rewrite (ltb_asym _ _ Hvs) in Habove. discriminate. }
  destruct (lookup_spec known_xtals v Hsize) as (r & Hr & Hout).
  destruct Hout as [k s Hs Hm|f s Hset Hs Heq
                    |f s low Hset Hs Heq Hvs Hlow|f s high Hset Hs Heq Hvs Hhigh];
    try contradiction.
  - pose proof (Hzero f Hset) as ->. assert (s = first) by congruence. subst s.
    rewrite Hvs. cbn [Z.eqb] in Hlow. injection Hlow as <-.
    apply validate_on_unknown; assumption.
  - pose proof (Hzero f Hset) as ->. assert (s = first) by congruence. subst s.
    rewrite Hvs.
    destruct (Z.ltb_spec 0 (Z.of_nat (length known_xtals) - 1)); [|lia].
    change (0 + 1) with 1 in Hhigh. assert (high = second) by congruence. subst high.
    apply validate_on_unknown; assumption.
Qed.

Lemma first_entry_needs_exact_match_witness :
  within_tolerance (S754_finite false 4503599627370497 (-37)) (of_int 32768) = true
  /\ validate initial_state (S754_finite false 4503599627370497 (-37))
     = Ok (false, set_xtal_error initial_state (of_int 32768) (of_int 38400)).
Proof.
  split; [vm_compute; reflexivity|].
  apply (first_entry_needs_exact_match initial_state
           (S754_finite false 4503599627370497 (-37)) (of_int 32768) (of_int 38400));
    vm_compute; reflexivity.
Defined.

(** X6.  In every reachable state the cache holds its initial -1 or a
    double that is within tolerance of an entry of the reference table. *)
Theorem cache_holds_initial_or_match (st : xtal_state) :
  reachable known_xtals st ->
  last_correct_value st = of_int (-1)
  \/ exists s, In s known_xtals
               /\ within_tolerance (last_correct_value st) s = true.
Proof. apply reachable_cache. exact known_xtals_curated. Qed.

Lemma cache_holds_initial_or_match_witness :
  last_correct_value (set_last_correct_value initial_state (of_int 3579545))
  = of_int (-1)
  \/ exists s, In s known_xtals
               /\ within_tolerance
                    (last_correct_value
                       (set_last_correct_value initial_state (of_int 3579545))) s
                  = true.
Proof.
  apply (cache_holds_initial_or_match
           (set_last_correct_value initial_state (of_int 3579545))).
  apply (reachable_call known_xtals initial_state (of_int 3579545) true).
  - apply reachable_initial.
  - vm_compute. reflexivity.
Defined.

(** X7.  The cache never changes an answer, the value -1 apart: in a
    reachable state [validate(v)] returns true exactly when the search of
    the table accepts [v]. *)
Theorem cache_never_changes_answer (st : xtal_state) (v : double) :
  reachable known_xtals st ->
  eqb v (of_int (-1)) = false ->
  (exists st', validate st v = Ok (true, st'))
  <-> lookup known_xtals v = Ok Correct.
Proof.
  intros Hreach Hv. unfold validate. split.
  - intros (st' & Hcall). apply validate_on_inv in Hcall.
    pose proof (reachable_cache_not_zero known_xtals known_xtals_curated st Hreach)
      as Hnz.
    pose proof (reachable_cache_lookup known_xtals st Hreach) as Hinv.
    inversion Hcall as [Hc|Hc Hl|]; subst; [|exact Hl].
    pose proof (eqb_eq _ _ Hc Hnz) as E.
    destruct Hinv as [Hinit|Hl].
    + rewrite E, Hinit in Hv. discriminate.
    + rewrite E. exact Hl.
  - intros Hl. destruct (eqb v (last_correct_value st)) eqn:Hc.
    + exists st. apply validate_on_cached, Hc.
    + exists (set_last_correct_value st v). apply validate_on_correct; assumption.
Qed.

Lemma cache_never_changes_answer_witness :
  (exists st',
      validate (set_last_correct_value initial_state (of_int 3579545))
        (of_int 4000000) = Ok (true, st'))
  <-> lookup known_xtals (of_int 4000000) = Ok Correct.
Proof.
  apply (cache_never_changes_answer
           (set_last_correct_value initial_state (of_int 3579545)) (of_int 4000000)).
  - apply (reachable_call known_xtals initial_state (of_int 3579545) true).
    + apply reachable_initial.
    + vm_compute. reflexivity.
  - vm_compute. reflexivity.
Defined.

(** X8.  A NaN candidate is rejected in every state and on every table of
    two or more entries, sorted or not: every comparison fails, the loop
    retreats to slot 0, and the brackets are the first two entries. *)
Theorem validate_on_nan (tbl : list double) (st : xtal_state) (first second : double) :
  Z.of_nat (length tbl) < 2 ^ 32 ->
  nth_error tbl 0 = Some first -> nth_error tbl 1 = Some second ->
  validate_on tbl st S754_nan = Ok (false, set_xtal_error st first second).
Proof.
  intros Hlen H0 H1. apply read_nth in H0, H1.
  change (Z.of_nat 0) with 0 in H0. change (Z.of_nat 1) with 1 in H1.
  pose proof (read_inv _ _ _ H1) as [Hlen1 _].
  assert (Hsize : 0 < Z.of_nat (length tbl) < 2 ^ U32.width)
    by (change U32.width with 32; lia).
  apply validate_on_unknown; [reflexivity|].
  destruct (lookup_spec tbl S754_nan Hsize) as (r & Hr & Hout).
  rewrite Hr. f_equal.
  destruct Hout as [k s Hs Hm|f s Hset Hs Heq
                    |f s low Hset Hs Heq Hvs Hlow|f s high Hset Hs Heq Hvs Hhigh];
    try discriminate.
  destruct Hset as (Hf & Hleft & _).
  destruct Hleft as [->|(s' & _ & _ & Habove)].
  - assert (s = first) by congruence. subst s.
    destruct (Z.ltb_spec 0 (Z.of_nat (length tbl) - 1)); [|lia].
    change (0 + 1) with 1 in Hhigh. congruence.
  - destruct s' as [| | |]; discriminate.
Qed.

Lemma validate_on_nan_witness :
  validate initial_state S754_nan
  = Ok (false, set_xtal_error initial_state (of_int 32768) (of_int 38400)).
Proof.
  apply (validate_on_nan known_xtals initial_state (of_int 32768) (of_int 38400));
    vm_compute; reflexivity.
Defined.

(** ** Candidates that are not positive *)








(** * The loop: its length and its dead branch *)

Lemma search_more_fuel (tbl : list double) (last_index : Z) (v : double)
    (fuel : nat) :
  forall (slot step : Z) (r : loop_exit),
    search fuel tbl last_index v slot step = Ok r ->
    forall n, search (fuel + n) tbl last_index v slot step = Ok r.
Proof.
  induction fuel as [|fuel IH]; intros slot step r Hr n.
  - cbn [search] in Hr. destruct (Z.eqb_spec step 0) as [->|Hne]; [|discriminate Hr].
    rewrite search_done. exact Hr.
  - cbn [search Nat.add] in Hr |- *.
    destruct (step =? 0); [exact Hr|].
    destruct (slot >? last_index); [apply IH, Hr|].
    destruct (read tbl slot) as [s|]; cbn [bind] in Hr |- *; [|discriminate Hr].
    destruct (within_tolerance v s); [exact Hr|].
    destruct (gtb v s); apply IH, Hr.
Qed.

(** X14.  The loop is logarithmic: on a table of two or more entries,
    [floor (log2 last_index) + 1] iterations already end it, with the
    result of the full run (9 iterations for the 316 entries of
    [known_xtals]). *)
Theorem search_iterations_bound (tbl : list double) (v : double) :
  1 < Z.of_nat (length tbl) < 2 ^ 32 ->
  exists r,
    search (Z.to_nat (Z.log2 (Z.of_nat (length tbl) - 1) + 1)) tbl
      (Z.of_nat (length tbl) - 1) v
      (ppow2_of (Z.of_nat (length tbl) - 1)) (ppow2_of (Z.of_nat (length tbl) - 1))
    = Ok r
    /\ search (Z.to_nat U32.width) tbl (Z.of_nat (length tbl) - 1) v
         (ppow2_of (Z.of_nat (length tbl) - 1)) (ppow2_of (Z.of_nat (length tbl) - 1))
       = Ok r.
Proof.
  intros Hsize. set (last_index := Z.of_nat (length tbl) - 1).
  assert (Hlen : Z.of_nat (length tbl) = last_index + 1) by (unfold last_index; lia).
  assert (Hrange : 0 < last_index < 2 ^ U32.width)
    by (change U32.width with 32; unfold last_index; lia).
  rewrite (ppow2_of_log2 last_index Hrange).
  pose proof (Z.log2_nonneg last_index) as Hk0.
  assert (Hk32 : Z.log2 last_index < U32.width) by (apply Z.log2_lt_pow2; lia).
  set (k := Z.log2 last_index) in *.
  pose proof (search_window tbl last_index v Hlen (Z.to_nat k)
                (Z.to_nat (k + 1)) 0 ltac:(lia) ltac:(lia)) as W.
  rewrite Z2Nat.id in W by lia. change (0 + 1) with 1 in W.
  rewrite Z.mul_0_l, Z.mul_1_l, Z.add_0_l in W. specialize (W ltac:(lia)).
  destruct (search (Z.to_nat (k + 1)) tbl last_index v (2 ^ k) (2 ^ k))
    as [r|] eqn:E; [|unfold search_post in W; contradiction].
  exists r. split; [reflexivity|].
  replace (Z.to_nat U32.width)
    with (Z.to_nat (k + 1) + (Z.to_nat U32.width - Z.to_nat (k + 1)))%nat by lia.
  apply search_more_fuel, E.
Qed.

Lemma search_iterations_bound_witness :
  exists r,
    search (Z.to_nat (Z.log2 (Z.of_nat (length known_xtals) - 1) + 1)) known_xtals
      (Z.of_nat (length known_xtals) - 1) (of_int 35000)
      (ppow2_of (Z.of_nat (length known_xtals) - 1))
      (ppow2_of (Z.of_nat (length known_xtals) - 1))
    = Ok r
    /\ search (Z.to_nat U32.width) known_xtals (Z.of_nat (length known_xtals) - 1)
         (of_int 35000)
         (ppow2_of (Z.of_nat (length known_xtals) - 1))
         (ppow2_of (Z.of_nat (length known_xtals) - 1))
       = Ok r.
Proof.
  apply (search_iterations_bound known_xtals (of_int 35000)).
  vm_compute. split; reflexivity.
Defined.

(** X15.  When the loop has settled on a slot whose entry is above the
    candidate, the slot is 0: a slot other than 0 is only kept after a
    probe that found its entry below the candidate.  So in the bracket
    computation [base_clock < sfreq] implies [slot == 0], and the
    assignment [xtal_error_low = known_xtals[slot-1]] is never executed,
    on any table, sorted or not. *)
Theorem low_neighbour_branch_is_dead (tbl : list double) (v : double) (f : Z)
    (s : double) :
  0 < Z.of_nat (length tbl) < 2 ^ 32 ->
  search (Z.to_nat U32.width) tbl (Z.of_nat (length tbl) - 1) v
    (ppow2_of (Z.of_nat (length tbl) - 1)) (ppow2_of (Z.of_nat (length tbl) - 1))
  = Ok (Settled f) ->
  read tbl f = Ok s ->
  ltb v s = true ->
  f = 0.
Proof.
  intros Hsize Hsearch Hs Hlt.
  pose proof (search_from_ppow2 tbl v Hsize) as S.
  rewrite Hsearch in S. destruct S as (_ & Hleft & _).
  destruct Hleft as [E|(s' & Hs' & _ & Habove)]; [exact E|exfalso].
  unfold gtb in Habove. assert (s' = s) by congruence. subst s'.
  rewrite (ltb_asym _ _ Hlt) in Habove. discriminate Habove.
Qed.

Lemma low_neighbour_branch_is_dead_witness :
  search (Z.to_nat U32.width) known_xtals (Z.of_nat (length known_xtals) - 1)
    (of_int 1000)
    (ppow2_of (Z.of_nat (length known_xtals) - 1))
    (ppow2_of (Z.of_nat (length known_xtals) - 1))
  = Ok (Settled 0)
  /\ ltb (of_int 1000) (of_int 32768) = true
  /\ 0 = 0.
Proof.
  split; [vm_compute; reflexivity|]. split; [reflexivity|].
  apply (low_neighbour_branch_is_dead known_xtals (of_int 1000) 0 (of_int 32768));
    vm_compute; try reflexivity. split; reflexivity.
Defined.

(** X16.  Asking again gives the same answer and changes nothing: after
    [validate(v)] has returned, in any state and with either result, a
    second [validate(v)] returns the same result and leaves the state as
    the first call left it. *)
Theorem validate_repeat (st : xtal_state) (v : double) (b : bool) (st' : xtal_state) :
  validate st v = Ok (b, st') -> validate st' v = Ok (b, st').
Proof.
  intros Hcall. unfold validate in *.
  pose proof (validate_on_inv _ _ _ _ _ Hcall) as Hout.
  inversion Hout as [Hc|Hc Hl|low high Hc Hl]; subst.
  - exact Hcall.
  - apply validate_on_cached. cbn [set_last_correct_value last_correct_value].
    apply eqb_refl.
    destruct (lookup_Correct_cases known_xtals v
                (curated_size _ known_xtals_curated) Hl)
      as [(k & s & _ & _ & Hm)|(f & s & _ & Heq)].
    + eapply within_tolerance_not_nan, Hm.
    + eapply eqb_not_nan, Heq.
  - unfold validate_on. cbn [set_xtal_error last_correct_value].
    rewrite Hc, Hl. reflexivity.
Qed.

Lemma validate_repeat_witness :
  validate (set_xtal_error initial_state (of_int 32768) (of_int 38400)) (of_int 35000)
  = Ok (false, set_xtal_error initial_state (of_int 32768) (of_int 38400)).
Proof.
  apply (validate_repeat initial_state (of_int 35000) false).
  vm_compute. reflexivity.
Defined.

(** ** What a failed call leaves for the report *)

Lemma entry_to_bool (s : double) : entry_ok s = true -> to_bool s = true.
Proof. destruct s as [| | |[] m e]; try discriminate. reflexivity. Qed.

Lemma read_known (k : Z) (s : double) :
  read known_xtals k = Ok s -> In s known_xtals /\ to_bool s = true.
Proof.
  intros Hs. split; [eapply read_In, Hs|].
  apply entry_to_bool, (curated_entry known_xtals known_xtals_curated k), Hs.
Qed.

(** X10.  After any call that returns false, whatever the candidate
    (NaN included) and the state, the frequencies [XTAL::fail] suggests
    are entries of the reference table: one or two of them, never the
    sentinel 0. *)
Theorem suggestions_are_entries (st : xtal_state) (v : double) (st' : xtal_state) :
  validate st v = Ok (false, st') ->
  (exists a, suggestions st' = [a] /\ In a known_xtals)
  \/ (exists a b, suggestions st' = [a; b] /\ In a known_xtals /\ In b known_xtals).
Proof.
  intros Hcall. unfold validate in Hcall. apply validate_on_inv in Hcall.
  inversion Hcall as [| |low high Hc Hl]; subst.
  destruct (lookup_spec known_xtals v (curated_size _ known_xtals_curated))
    as (r & Hr & Hout).
  rewrite Hl in Hr. injection Hr as <-.
  unfold suggestions. cbn [set_xtal_error xtal_error_low xtal_error_high].
  inversion Hout as [| |f s low' _ Hs _ _ Hlow|f s high' _ Hs _ _ Hhigh]; subst.
  - destruct (read_known f high Hs) as [Hin Hb]. rewrite Hb.
    destruct (f =? 0).
    + injection Hlow as <-. left. exists high. auto.
    + destruct (read_known _ low Hlow) as [Hinl Hbl]. rewrite Hbl.
      right. exists low, high. auto.
  - destruct (read_known f low Hs) as [Hin Hb]. rewrite Hb.
    destruct (f <? Z.of_nat (length known_xtals) - 1).
    + destruct (read_known _ high Hhigh) as [Hinh Hbh]. rewrite Hbh.
      right. exists low, high. auto.
    + injection Hhigh as <-. left. exists low. auto.
Qed.

Lemma suggestions_are_entries_witness :
  (exists a,
      suggestions (set_xtal_error initial_state (of_int 32768) (of_int 38400)) = [a]
      /\ In a known_xtals)
  \/ (exists a b,
      suggestions (set_xtal_error initial_state (of_int 32768) (of_int 38400)) = [a; b]
      /\ In a known_xtals /\ In b known_xtals).
Proof.
  apply (suggestions_are_entries initial_state S754_nan).
  vm_compute. reflexivity.
Defined.

(** * XTAL::validate(message) and XTAL::fail *)

Module ReportFacts.
Import Ascii String Report.
Local Open Scope string_scope.

Lemma append_assoc (a b c : string) : (a ++ b) ++ c = a ++ (b ++ c).
Proof. induction a as [|ch a IH]; cbn; [reflexivity|now rewrite IH]. Qed.

(** A formatter to run the reports with: the decimal digits of the
    integer part.  It is exact on the integer-valued doubles of the
    examples below. *)
Definition sample_fixed0 (x : double) : string :=
  match x with
  | S754_finite s m e =>
      DecimalString.NilZero.string_of_int
        (Z.to_int (cond_Zopp s (Z.shiftl (Z.pos m) e)))
  | _ => "0"
  end.

Section Format.

Variable fixed0 : double -> string.

(** X11.  In-range mismatch, end to end: in a reachable state,
    [validate(message)] on a double strictly between two consecutive
    entries, within tolerance of neither, ends in [fatalerror] with a
    text that names the rejected value, the two entries and the context. *)
Theorem in_range_report (st : xtal_state) (v : double) (i : nat) (lo hi : double)
    (message : string) :
  reachable known_xtals st ->
  is_double v ->
  nth_error known_xtals i = Some lo -> nth_error known_xtals (S i) = Some hi ->
  Double.ltb lo v = true -> Double.ltb v hi = true ->
  within_tolerance v lo = false -> within_tolerance v hi = false ->
  validate_message fixed0 st v message
  = Ok (Fatal ("Unknown crystal value " ++ fixed0 v
               ++ ".  Did you mean " ++ fixed0 lo ++ " or " ++ fixed0 hi
               ++ "? Context: " ++ message ++ newline ++ newline)).
Proof.
  intros Hreach Hv Hlo Hhi Hlt Hgt Hnlo Hnhi.
  pose proof known_xtals_curated as Hc.
  destruct (validate_on_between known_xtals st v i lo hi Hc Hreach Hv Hlo Hhi
              Hlt Hgt Hnlo Hnhi) as [Hcall _].
  unfold validate_message, validate. rewrite Hcall. cbn [bind fst snd].
  unfold fail. cbn [set_xtal_error xtal_error_low xtal_error_high].
  apply read_nth in Hlo, Hhi.
  rewrite (proj2 (read_known _ lo Hlo)), (proj2 (read_known _ hi Hhi)).
  cbn [andb]. rewrite !append_assoc. reflexivity.
Qed.

(** X12.  Out-of-range mismatch, end to end: for a positive double below
    the smallest entry, or above the largest, and out of its tolerance,
    the fatal text names that one entry only. *)
Theorem out_of_range_report (st : xtal_state) (v : double) (message : string) :
  reachable known_xtals st ->
  is_double v ->
  Double.ltb (of_int 0) v = true ->
  (forall smallest,
      nth_error known_xtals 0 = Some smallest ->
      Double.ltb v smallest = true -> within_tolerance v smallest = false ->
      validate_message fixed0 st v message
      = Ok (Fatal ("Unknown crystal value " ++ fixed0 v
                   ++ ".  Did you mean " ++ fixed0 smallest
                   ++ "? Context: " ++ message ++ newline ++ newline)))
  /\ (forall largest,
      nth_error known_xtals (List.length known_xtals - 1) = Some largest ->
      Double.ltb largest v = true -> within_tolerance v largest = false ->
      validate_message fixed0 st v message
      = Ok (Fatal ("Unknown crystal value " ++ fixed0 v
                   ++ ".  Did you mean " ++ fixed0 largest
                   ++ "? Context: " ++ message ++ newline ++ newline))).
Proof.
  intros Hreach Hv Hpos.
  pose proof known_xtals_curated as Hc.
  destruct (validate_on_out_of_range known_xtals st v Hc Hreach Hv Hpos)
    as [Hbelow Habove].
  split.
  - intros s0 Hs0 Hlt Hn0.
    destruct (Hbelow s0 Hs0 Hlt Hn0) as [Hcall _].
    unfold validate_message, validate. rewrite Hcall. cbn [bind fst snd].
    unfold fail. cbn [set_xtal_error xtal_error_low xtal_error_high].
    change (to_bool (of_int 0)) with false. cbn [andb].
    rewrite !append_assoc. reflexivity.
  - intros sl Hsl Hlt Hnl.
    destruct (Habove sl Hsl Hlt Hnl) as [Hcall _].
    unfold validate_message, validate. rewrite Hcall. cbn [bind fst snd].
    unfold fail. cbn [set_xtal_error xtal_error_low xtal_error_high].
    apply read_nth in Hsl. rewrite (proj2 (read_known _ sl Hsl)).
    change (to_bool (of_int 0)) with false. cbn [andb].
    rewrite !append_assoc. reflexivity.
Qed.

(** X13.  On an entry of the reference table [validate(message)] returns
    without a fatal error, in every state and with every context, and
    leaves the entry in the cache. *)
Theorem validate_message_accepts_entries (st : xtal_state) (v : double)
    (message : string) :
  In v known_xtals ->
  exists st',
    validate_message fixed0 st v message = Ok (Returns st')
    /\ Double.eqb v (last_correct_value st') = true.
Proof.
  intros Hin. unfold validate_message, validate.
  destruct (Double.eqb v (last_correct_value st)) eqn:Hcache.
  - exists st. rewrite (validate_on_cached known_xtals st v Hcache). auto.
  - exists (set_last_correct_value st v).
    apply In_nth_error in Hin as [n Hn]. apply read_nth in Hn.
    rewrite (validate_on_correct known_xtals st v Hcache
               (lookup_entry known_xtals _ v known_xtals_curated Hn)).
    split; [reflexivity|]. cbn [set_last_correct_value last_correct_value].
    pose proof (curated_entry known_xtals known_xtals_curated _ v Hn) as Hok.
    destruct v as [| | |[] m e]; try discriminate Hok.
    unfold Double.eqb, SFeqb, SFcompare. rewrite Z.compare_refl.
    change (Pos.compare_cont Eq m m) with (Pos.compare m m).
    rewrite Pos.compare_refl. reflexivity.
Qed.

End Format.

Lemma in_range_report_witness :
  validate_message sample_fixed0 initial_state (of_int 35000) "cpu clock"
  = Ok (Fatal ("Unknown crystal value 35000.  Did you mean 32768 or 38400? Context: cpu clock"
               ++ newline ++ newline)).
Proof.
  apply (in_range_report sample_fixed0 initial_state (of_int 35000) 0
           (of_int 32768) (of_int 38400) "cpu clock");
    try (vm_compute; reflexivity).
  apply reachable_initial.
Defined.

Lemma out_of_range_report_witness :
  validate_message sample_fixed0 initial_state (of_int 300000000) "sh4"
  = Ok (Fatal ("Unknown crystal value 300000000.  Did you mean 200000000? Context: sh4"
               ++ newline ++ newline)).
Proof.
  refine (proj2 (out_of_range_report sample_fixed0 initial_state
                   (of_int 300000000) "sh4" (reachable_initial known_xtals) _ _)
            (of_int 200000000) _ _ _);
    vm_compute; reflexivity.
Defined.

Lemma validate_message_accepts_entries_witness :
  exists st',
    validate_message sample_fixed0 initial_state (of_int 14318181) "video"
    = Ok (Returns st')
    /\ Double.eqb (of_int 14318181) (last_correct_value st') = true.
Proof.
  apply (validate_message_accepts_entries sample_fixed0 initial_state
           (of_int 14318181) "video").
  vm_compute. tauto.
Defined.

End ReportFacts.
